(** * The Letter Challenge server (server.js): matchmaking and room state

    A shallow embedding of the WebSocket server of the repository: the
    dictionary helpers ([canMake], [isWordValid], [countDictionaryMatches]),
    the letter-set generator ([shuffleArray], [pickLettersWithAtLeastNWords],
    [initGameState]) and the event handlers of the connection callback
    (create-room, join-room, quick-match, start-game, submit-word, get-state
    and the close handler) and the loading of the dictionary, followed by the
    properties of the specification that were checked against them and by
    further properties read off the code.

    Modelling conventions.
    - JavaScript strings are modelled as [string] (sequences of [ascii]
      characters): the model covers ASCII text, where a UTF-16 code unit, a
      code point and a character coincide, so that [word.length] is
      [String.length] and [for (const ch of word)] walks
      [list_ascii_of_string].  A letter of the pool (a one-character string
      obtained from [alpha.split('')]) is an [ascii].
    - [Map] and plain objects used as maps are [gmap]s, [Set] is a [gset] when
      only membership is used and a list when it is iterated.
    - Scores and lengths are natural numbers, player indices received from a
      client are integers: the payload is not validated by the server.
    - The two entropy sources, [Math.random()] and [crypto.randomBytes], are
      streams indexed by the number of draws made so far; the counters are part
      of the server state. *)

From Stdlib Require Import Ascii String QArith Qround.
From stdpp Require Import gmap strings list fin_maps.

Local Open Scope string_scope.
Local Open Scope list_scope.
Local Open Scope nat_scope.

Set Warnings "-abstract-large-number".

(** ** Strings and characters *)

(** [String.prototype.toLowerCase] on one ASCII character. *)
Definition toLowerCase_char (c : ascii) : ascii :=
  let n := nat_of_ascii c in
  if (65 <=? n) && (n <=? 90) then ascii_of_nat (n + 32) else c.

(** [s.toLowerCase()]. *)
Fixpoint toLowerCase (s : string) : string :=
  match s with
  | EmptyString => EmptyString
  | String c s' => String (toLowerCase_char c) (toLowerCase s')
  end.

(** ** Dictionary oracle *)

(** The table [counts] of [canMake]: a plain object keyed by one-character
    strings.  Every inherited property of an object literal has a name of
    several characters, so a one-character key is present only when the
    function stored it. *)
Definition tally (lettersArr : list ascii) : gmap ascii nat :=
  foldl (fun counts l => <[l := default 0 (counts !! l) + 1]> counts) ∅ lettersArr.

(** The loop [for (const ch of word)] of [canMake]: [!counts[ch]] holds when
    the entry is missing or zero. *)
Fixpoint canMake_loop (chs : list ascii) (counts : gmap ascii nat) : bool :=
  match chs with
  | [] => true
  | ch :: rest =>
      match counts !! ch with
      | None | Some 0 => false
      | Some (S n) => canMake_loop rest (<[ch := n]> counts)
      end
  end.

Definition canMake (word : string) (lettersArr : list ascii) : bool :=
  canMake_loop (list_ascii_of_string word) (tally lettersArr).

Section Dictionary.
(** [serverDictionary]: the words of words.txt, trimmed and lower-cased, in
    insertion order (a [Set], hence without duplicates); empty when the file
    could not be read. *)
Variable serverDictionary : list string.

Definition dictionary_has (w : string) : bool :=
  bool_decide (w ∈ serverDictionary).

(** [isWordValid(word, lettersArr)]: [serverDictionary.size] is falsy exactly
    when the dictionary is empty. *)
Definition isWordValid (word : string) (lettersArr : list ascii) : bool :=
  if negb (length serverDictionary =? 0) && negb (dictionary_has (toLowerCase word))
  then false
  else canMake word (map toLowerCase_char lettersArr).

(** The [for (let word of serverDictionary)] loop of
    [countDictionaryMatches]; [continue] skips short words, [break] leaves
    the loop once a thousand matches were counted. *)
Fixpoint count_loop (letters : list ascii) (ws : list string) (count : nat) : nat :=
  match ws with
  | [] => count
  | word :: rest =>
      if String.length word <? 2 then count_loop letters rest count
      else
        let count' := if canMake word letters then S count else count in
        if 1000 <=? count' then count' else count_loop letters rest count'
  end.

Definition countDictionaryMatches (lettersArr : list ascii) : nat :=
  if length serverDictionary =? 0 then 5
  else count_loop (map toLowerCase_char lettersArr) serverDictionary 0.
End Dictionary.

(** ** Letter-set generator *)

(** [[array[i], array[j]] = [array[j], array[i]]]: both cells are read, then
    cell [i] and cell [j] are written, in that order.  The indices
    [shuffleArray] passes are within the array. *)
Definition swap {A : Type} (array : list A) (i j : nat) : list A :=
  match array !! i, array !! j with
  | Some x, Some y => <[j := x]> (<[i := y]> array)
  | _, _ => array
  end.

Section Generator.
Variable serverDictionary : list string.

(** [mathRandom k] is the value of the [k]-th call of [Math.random()], a
    number of the interval [0, 1), taken as a rational. *)
Variable mathRandom : N -> Q.

(** [Math.floor(Math.random() * bound)] at the [k]-th draw.  The product is
    taken exactly; the code takes it in double precision, rounded to the
    nearest representable number, so that the two may differ when the product
    lies within one rounding of an integer. *)
Definition random_index (k : N) (bound : nat) : nat :=
  Z.to_nat (Qfloor (mathRandom k * inject_Z (Z.of_nat bound))).

(** [shuffleArray(array)]: the loop runs [i] from [array.length - 1] down
    to [1]; the array is shuffled in place and returned.  The second
    component is the number of draws of [Math.random()] made so far. *)
Fixpoint shuffle_loop {A : Type} (i : nat) (array : list A) (k : N) : list A * N :=
  match i with
  | 0 => (array, k)
  | S i' => shuffle_loop i' (swap array i (random_index k (i + 1))) (k + 1)%N
  end.

Definition shuffleArray {A : Type} (array : list A) (k : N) : list A * N :=
  shuffle_loop (length array - 1) array k.

Definition alphabet : list ascii :=
  list_ascii_of_string "ABCDEFGHIJKLMNOPQRSTUVWXYZ".

(** The [for] loop of [pickLettersWithAtLeastNWords] with [attempts]
    iterations left.  [alpha] is the one array that every call of
    [shuffleArray] permutes in place; [slice] copies out of it. *)
Fixpoint pick_loop (attempts size n : nat) (alpha : list ascii) (k : N)
  : list ascii * N :=
  match attempts with
  | 0 => (take size alpha, k)
  | S attempts' =>
      let '(alpha', k') := shuffleArray alpha k in
      let cand := take size alpha' in
      let count := countDictionaryMatches serverDictionary cand in
      if n <=? count then (cand, k')
      else pick_loop attempts' size n alpha' k'
  end.

Definition pickLettersWithAtLeastNWords (size n : nat) (k : N) : list ascii * N :=
  pick_loop 10000 size n alphabet k.
End Generator.

(** ** Game state *)

Record FoundWord := { word : string; by_ : Z }.

Record GameState := {
  mode : string;
  letters : list ascii;
  turn : Z;
  p1Score : nat;
  p2Score : nat;
  foundWords : list FoundWord;
  foundWordsSet : gset string
}.

Section InitGameState.
Variable serverDictionary : list string.
Variable mathRandom : N -> Q.

Definition pool_size (mode : string) : nat :=
  if String.eqb mode "basic" then 5
  else if String.eqb mode "terrible" then 10 else 20.

(** [initGameState(mode)], with the draws of [Math.random()] threaded
    through. *)
Definition initGameState (mode : string) (k : N) : GameState * N :=
  let '(letters, k') :=
    pickLettersWithAtLeastNWords serverDictionary mathRandom (pool_size mode) 3 k in
  ({| mode := mode; letters := letters; turn := 1;
      p1Score := 0; p2Score := 0; foundWords := []; foundWordsSet := ∅ |}, k').

(** [payload.mode || "versus"]: a missing or empty mode is falsy. *)
Definition mode_or_default (m : option string) : string :=
  match m with
  | Some s => if String.eqb s "" then "versus" else s
  | None => "versus"
  end.
End InitGameState.

(** ** Room state machine: the accepting part of the submit-word handler *)

Inductive MoveResult :=
| Ignored
| Rejected (reason : string)
| Accepted (state : GameState).

Section SubmitWord.
Variable serverDictionary : list string.

(** The body of the submit-word handler from [const state = room.state] on,
    for a room that has a state; [!word] holds for the empty string.  The
    state object is updated in place: the result is its new content.  The word
    is a string: with a dictionary loaded the handler throws on any other
    value ([word.toLowerCase] is missing), without one it would walk an array
    element by element, which the model does not cover. *)
Definition submitWord (state : GameState) (w : string) (playerIndex : Z) : MoveResult :=
  if String.eqb w "" then Ignored
  else if bool_decide (w ∈ foundWordsSet state) then Rejected "already-found"
  else if negb (isWordValid serverDictionary w (letters state)) then Rejected "invalid-word"
  else
    let pts := String.length w in
    Accepted
      {| mode := mode state;
         letters := letters state;
         turn := if (playerIndex =? 1)%Z then 2 else 1;
         p1Score := if (playerIndex =? 1)%Z then p1Score state + pts else p1Score state;
         p2Score := if (playerIndex =? 1)%Z then p2Score state else p2Score state + pts;
         foundWords := foundWords state ++ [{| word := w; by_ := playerIndex |}];
         foundWordsSet := {[w]} ∪ foundWordsSet state |}.

(** A run of submissions that are all accepted; [None] as soon as one of
    them is ignored or rejected. *)
Fixpoint acceptedMoves (state : GameState) (moves : list (string * Z)) : option GameState :=
  match moves with
  | [] => Some state
  | (w, playerIndex) :: rest =>
      match submitWord state w playerIndex with
      | Accepted state' => acceptedMoves state' rest
      | _ => None
      end
  end.
End SubmitWord.

(** ** Matchmaking registry and session coordinator *)

(** A connection is the socket object [ws]; sockets are compared by identity
    ([p !== ws], [waiting.indexOf(ws)]), here by the rank of their
    connection event. *)
Definition conn := nat.

Record Room := {
  room_id : string;
  players : list conn;
  state : option GameState
}.

(** What [send(ws, type, payload)] hands to the transport.  The payload is
    serialized when it is sent, so a message holds the content the state had at
    that moment. *)
Inductive Msg :=
| RoomCreated (roomId : string)
| ErrorMsg (message : string)
| RoomJoined (roomId : string) (playerIndex : nat) (state : GameState)
| Matched (roomId : string) (playerIndex : nat) (state : GameState)
| Waiting
| GameStart (state : GameState) (playerIndex : nat)
| MoveRejected (reason : string)
| StateUpdate (state : option GameState)
| PeerLeft.

(** A parsed message [{ type, payload }]; [Unhandled] stands for a text that
    does not parse and for a type no branch handles.  The payload of the other
    messages is an object. *)
Inductive ClientMsg :=
| CreateRoom
| JoinRoom (roomId : string) (mode : option string)
| QuickMatch (mode : option string)
| StartGame (mode : option string)
| SubmitWord (w : string) (playerIndex : Z)
| GetState
| Unhandled.

Inductive Event :=
| Connection
| Close (ws : conn)
| Message (ws : conn) (msg : ClientMsg).

Record Server := {
  rooms : gmap string Room;        (* const rooms = new Map() *)
  waiting : list conn;             (* const waiting = [] *)
  roomId : gmap conn string;       (* ws.roomId, absent when null *)
  connections : nat;               (* sockets accepted so far *)
  closed : gset conn;              (* sockets whose readyState is not OPEN *)
  randomDraws : N;                 (* calls of Math.random() so far *)
  cryptoDraws : N                  (* bytes taken from crypto.randomBytes so far *)
}.

Definition initial : Server :=
  {| rooms := ∅; waiting := []; roomId := ∅; connections := 0; closed := ∅;
     randomDraws := 0; cryptoDraws := 0 |}.

(** [waiting.indexOf(ws)] followed by [splice(idx, 1)] when found. *)
Fixpoint remove_first (ws : conn) (queue : list conn) : list conn :=
  match queue with
  | [] => []
  | p :: rest => if decide (p = ws) then rest else p :: remove_first ws rest
  end.

Definition hex_digit (n : N) : ascii :=
  nth (N.to_nat n) (list_ascii_of_string "0123456789abcdef") "0"%char.

Definition hex_of_byte (b : N) : list ascii :=
  [hex_digit (b / 16)%N; hex_digit (b mod 16)%N].

Section Handlers.
Variable serverDictionary : list string.
Variable mathRandom : N -> Q.

(** [cryptoRandom k] is the [k]-th byte delivered by [crypto.randomBytes]. *)
Variable cryptoRandom : N -> N.

(** [makeId(len)]: [len] random bytes in hexadecimal, cut to [len]
    characters; [k] counts the bytes used before the call. *)
Definition makeId (len : nat) (k : N) : string * N :=
  let bytes := map (fun i => (cryptoRandom (k + N.of_nat i) mod 256)%N) (seq 0 len) in
  (substring 0 len (string_of_list_ascii (concat (map hex_of_byte bytes))),
   (k + N.of_nat len)%N).

(** The messages handed to [send] while an event is handled, in order. *)
Definition Outbox := list (conn * Msg).

(** [wss.on("connection", ...)]: the new socket gets an id that nothing
    reads and a null [roomId]. *)
Definition onConnection (S : Server) : Server * Outbox :=
  let ws := connections S in
  let '(_, c') := makeId 4 (cryptoDraws S) in
  ({| rooms := rooms S; waiting := waiting S; roomId := delete ws (roomId S);
      connections := ws + 1; closed := closed S;
      randomDraws := randomDraws S; cryptoDraws := c' |}, []).

(** [rooms.get(ws.roomId)], with the key it was found under; nothing when
    [ws.roomId] is null or names no room of the registry. *)
Definition roomOf (ws : conn) (S : Server) : option (string * Room) :=
  roomId S !! ws ≫= (fun rid => pair rid <$> rooms S !! rid).

(** [ws.on("close", ...)]: the socket is no longer open when the handler
    runs. *)
Definition onClose (ws : conn) (S : Server) : Server * Outbox :=
  let closed' := {[ws]} ∪ closed S in
  match roomOf ws S with
  | Some (rid, room) =>
      ({| rooms := delete rid (rooms S); waiting := waiting S; roomId := roomId S;
          connections := connections S; closed := closed';
          randomDraws := randomDraws S; cryptoDraws := cryptoDraws S |},
       map (fun p => (p, PeerLeft))
           (filter (fun p => p ≠ ws ∧ p ∉ closed') (players room)))
  | None =>
      ({| rooms := rooms S; waiting := remove_first ws (waiting S); roomId := roomId S;
          connections := connections S; closed := closed';
          randomDraws := randomDraws S; cryptoDraws := cryptoDraws S |}, [])
  end.

Definition createRoom (ws : conn) (S : Server) : Server * Outbox :=
  let '(rid, c') := makeId 3 (cryptoDraws S) in
  let room := {| room_id := rid; players := [ws]; state := None |} in
  ({| rooms := <[rid := room]> (rooms S); waiting := waiting S;
      roomId := <[ws := rid]> (roomId S);
      connections := connections S; closed := closed S;
      randomDraws := randomDraws S; cryptoDraws := c' |},
   [(ws, RoomCreated rid)]).

Definition joinRoom (ws : conn) (rid : string) (m : option string) (S : Server)
  : Server * Outbox :=
  match rooms S !! rid with
  | None => (S, [(ws, ErrorMsg "Room not found")])
  | Some room =>
      if 2 <=? length (players room) then (S, [(ws, ErrorMsg "Room full")])
      else
        let players' := players room ++ [ws] in
        let '(st, k') :=
          initGameState serverDictionary mathRandom (mode_or_default m) (randomDraws S) in
        let room' := {| room_id := room_id room; players := players'; state := Some st |} in
        ({| rooms := <[rid := room']> (rooms S); waiting := waiting S;
            roomId := <[ws := rid]> (roomId S);
            connections := connections S; closed := closed S;
            randomDraws := k'; cryptoDraws := cryptoDraws S |},
         imap (fun i p => (p, RoomJoined rid (i + 1) st)) players')
  end.

Definition quickMatch (ws : conn) (m : option string) (S : Server) : Server * Outbox :=
  match waiting S with
  | peer :: rest =>
      let '(rid, c') := makeId 3 (cryptoDraws S) in
      let '(st, k') :=
        initGameState serverDictionary mathRandom (mode_or_default m) (randomDraws S) in
      let room := {| room_id := rid; players := [peer; ws]; state := Some st |} in
      ({| rooms := <[rid := room]> (rooms S); waiting := rest;
          roomId := <[ws := rid]> (<[peer := rid]> (roomId S));
          connections := connections S; closed := closed S;
          randomDraws := k'; cryptoDraws := c' |},
       [(peer, Matched rid 1 st); (ws, Matched rid 2 st)])
  | [] =>
      ({| rooms := rooms S; waiting := waiting S ++ [ws]; roomId := roomId S;
          connections := connections S; closed := closed S;
          randomDraws := randomDraws S; cryptoDraws := cryptoDraws S |},
       [(ws, Waiting)])
  end.

Definition set_state (rid : string) (room : Room) (st : GameState) (k : N) (S : Server)
  : Server :=
  {| rooms := <[rid := {| room_id := room_id room; players := players room;
                          state := Some st |}]> (rooms S);
     waiting := waiting S; roomId := roomId S;
     connections := connections S; closed := closed S;
     randomDraws := k; cryptoDraws := cryptoDraws S |}.

Definition startGame (ws : conn) (m : option string) (S : Server) : Server * Outbox :=
  match roomOf ws S with
  | None => (S, [])
  | Some (rid, room) =>
      let '(st, S') :=
        match state room with
        | Some st => (st, S)
        | None =>
            let '(st, k') :=
              initGameState serverDictionary mathRandom (mode_or_default m) (randomDraws S) in
            (st, set_state rid room st k' S)
        end in
      (S', imap (fun i p => (p, GameStart st (i + 1))) (players room))
  end.

Definition onSubmitWord (ws : conn) (w : string) (playerIndex : Z) (S : Server)
  : Server * Outbox :=
  match roomOf ws S with
  | None => (S, [])
  | Some (rid, room) =>
      match state room with
      | None => (S, [])
      | Some st =>
          match submitWord serverDictionary st w playerIndex with
          | Ignored => (S, [])
          | Rejected reason => (S, [(ws, MoveRejected reason)])
          | Accepted st' =>
              (set_state rid room st' (randomDraws S) S,
               map (fun p => (p, StateUpdate (Some st'))) (players room))
          end
      end
  end.

Definition getState (ws : conn) (S : Server) : Server * Outbox :=
  match roomOf ws S with
  | None => (S, [])
  | Some (_, room) => (S, [(ws, StateUpdate (state room))])
  end.

(** [ws.on("message", ...)]. *)
Definition onMessage (ws : conn) (msg : ClientMsg) (S : Server) : Server * Outbox :=
  match msg with
  | CreateRoom => createRoom ws S
  | JoinRoom rid m => joinRoom ws rid m S
  | QuickMatch m => quickMatch ws m S
  | StartGame m => startGame ws m S
  | SubmitWord w playerIndex => onSubmitWord ws w playerIndex S
  | GetState => getState ws S
  | Unhandled => (S, [])
  end.

Definition handle (S : Server) (ev : Event) : Server * Outbox :=
  match ev with
  | Connection => onConnection S
  | Close ws => onClose ws S
  | Message ws msg => onMessage ws msg S
  end.

(** Events are handled one at a time, in arrival order. *)
Fixpoint run (S : Server) (evs : list Event) : Server * Outbox :=
  match evs with
  | [] => (S, [])
  | ev :: rest =>
      let '(S1, out1) := handle S ev in
      let '(S2, out2) := run S1 rest in
      (S2, out1 ++ out2)
  end.

(** An event comes from a socket that was accepted and is still open. *)
Definition enabled (S : Server) (ev : Event) : Prop :=
  match ev with
  | Connection => True
  | Close ws | Message ws _ => ws < connections S ∧ ws ∉ closed S
  end.

Inductive reachable : Server -> Prop :=
| reachable_initial : reachable initial
| reachable_handle S ev :
    reachable S -> enabled S ev -> reachable (handle S ev).1.
End Handlers.

(** ** Notions used by the properties *)

(** Number of occurrences of a character in a sequence. *)
Definition occurrences (c : ascii) (l : list ascii) : nat :=
  length (filter (fun x => x = c) l).

(** Occurrences up to letter case. *)
Definition occurrences_ci (c : ascii) (l : list ascii) : nat :=
  length (filter (fun x => toLowerCase_char x = toLowerCase_char c) l).

(** The feasibility test as the specification words it ([canFormFromLetters]):
    the letters are a multiset of characters, compared without regard to
    case, and every character of the word is drawn from it at most as often
    as it occurs there. *)
Definition canFormFromLetters (w : string) (letters : list ascii) : bool :=
  forallb (fun c => occurrences_ci c (list_ascii_of_string w) <=? occurrences_ci c letters)
          (list_ascii_of_string w).

(** Sum of the lengths of the accepted words whose [by] field satisfies [p]. *)
Definition lengthsBy (p : Z -> bool) (found : list FoundWord) : nat :=
  sum_list_with (fun f => String.length (word f)) (filter (fun f => p (by_ f) = true) found).

(** The entry of [foundWords] an accepted submission leaves. *)
Definition found (m : string * Z) : FoundWord := {| word := m.1; by_ := m.2 |}.

(** The array [alpha] after [attempts] calls of [shuffleArray]. *)
Fixpoint shuffled (mathRandom : N -> Q) (attempts : nat) (alpha : list ascii) (k : N)
  : list ascii * N :=
  match attempts with
  | 0 => (alpha, k)
  | S attempts' =>
      let '(alpha', k') := shuffleArray mathRandom alpha k in
      shuffled mathRandom attempts' alpha' k'
  end.

(** A connection belongs to a room of the registry. *)
Definition in_room (S : Server) (c : conn) : Prop :=
  ∃ rid room, rooms S !! rid = Some room ∧ c ∈ players room.

(** A join-room event on this id passes both tests of the handler. *)
Definition join_succeeds (S : Server) (rid : string) : Prop :=
  match rooms S !! rid with
  | Some room => length (players room) < 2
  | None => False
  end.

(** The events that keep the sockets of the queue without a room id: a
    quick-match that finds the queue empty, and so enqueues its sender, comes
    from a socket whose [roomId] is null; a socket of the queue sends no
    create-room and no join-room that succeeds.  The server checks none of
    this; every other event is allowed. *)
Definition disciplined (S : Server) (ev : Event) : Prop :=
  match ev with
  | Message ws (QuickMatch _) => waiting S = [] → roomId S !! ws = None
  | Message ws CreateRoom => ws ∉ waiting S
  | Message ws (JoinRoom rid _) => ws ∈ waiting S → ¬ join_succeeds S rid
  | _ => True
  end.

Section Disciplined.
Variable serverDictionary : list string.
Variable mathRandom : N -> Q.
Variable cryptoRandom : N -> N.

Inductive reachable_disciplined : Server -> Prop :=
| disciplined_initial : reachable_disciplined initial
| disciplined_handle S ev :
    reachable_disciplined S -> enabled S ev -> disciplined S ev ->
    reachable_disciplined (handle serverDictionary mathRandom cryptoRandom S ev).1.
End Disciplined.

(** Every room of the registry holds one or two players. *)
Definition rooms_sized (S : Server) : Prop :=
  map_Forall (fun _ room => 1 ≤ length (players room) ≤ 2) (rooms S).

Global Instance in_room_dec S c : Decision (in_room S c).
Proof.
  refine (cast_if (decide (Exists (fun kr : string * Room => c ∈ players kr.2)
                                  (map_to_list (rooms S))))).
  - apply Exists_exists in e as ([rid room] & Hin & Hc).
    exists rid, room. split; [by apply elem_of_map_to_list | done].
  - intros (rid & room & Hl & Hc). apply n, Exists_exists.
    exists (rid, room). split; [by apply elem_of_map_to_list | done].
Defined.

Global Instance enabled_dec S ev : Decision (enabled S ev).
Proof. destruct ev; simpl; apply _. Defined.

Global Instance join_succeeds_dec S rid : Decision (join_succeeds S rid).
Proof. unfold join_succeeds. destruct (rooms S !! rid); apply _. Defined.

Global Instance disciplined_dec S ev : Decision (disciplined S ev).
Proof. destruct ev as [| |ws []]; simpl; apply _. Defined.

Section Traces.
Variable serverDictionary : list string.
Variable mathRandom : N -> Q.
Variable cryptoRandom : N -> N.

(** Every event of a trace is enabled when its turn comes. *)
Fixpoint all_enabled (S : Server) (evs : list Event) : Prop :=
  match evs with
  | [] => True
  | ev :: rest =>
      enabled S ev
      ∧ all_enabled (handle serverDictionary mathRandom cryptoRandom S ev).1 rest
  end.

(** Every event of a trace is enabled and disciplined when its turn comes. *)
Fixpoint all_disciplined (S : Server) (evs : list Event) : Prop :=
  match evs with
  | [] => True
  | ev :: rest =>
      enabled S ev ∧ disciplined S ev
      ∧ all_disciplined (handle serverDictionary mathRandom cryptoRandom S ev).1 rest
  end.

Global Instance all_enabled_dec S evs : Decision (all_enabled S evs).
Proof. revert S. induction evs; intros S; simpl; apply _. Defined.

Global Instance all_disciplined_dec S evs : Decision (all_disciplined S evs).
Proof. revert S. induction evs; intros S; simpl; apply _. Defined.
End Traces.

(** Concrete entropy used in examples: [Math.random()] always close to one
    (every swap of [shuffleArray] is then of a cell with itself), and the same,
    but for a first draw of zero. *)
Definition random_high : N -> Q := fun _ => (99 # 100)%Q.
Definition random_zero_then_high : N -> Q :=
  fun k => if (k =? 0)%N then 0%Q else (99 # 100)%Q.
Definition crypto_count : N -> N := fun k => (171 + k)%N.

(** Draws that vary from call to call (a linear congruence, in thousandths). *)
Definition random_varied : N -> Q :=
  fun k => (Z.of_N ((k * 7919 + 13) mod 1000) # 1000)%Q.

(** Traces used in examples.  With [crypto_count], the two, resp. three,
    connection events use up the first eight, resp. twelve, random bytes and
    the room that follows gets the id b3b, resp. b7b; after one connection
    event it is afb. *)
Definition trace_host_plays : list Event :=
  [Connection; Connection; Message 0 CreateRoom;
   Message 0 (StartGame (Some "basic")); Message 0 (SubmitWord "bad" 1)].

Definition trace_paired : list Event :=
  [Connection; Connection; Connection;
   Message 0 (QuickMatch None); Message 1 (QuickMatch (Some "basic"))].

Definition trace_host_queues : list Event :=
  [Connection; Message 0 CreateRoom; Message 0 (QuickMatch None)].

Definition trace_waiter : list Event :=
  [Connection; Connection; Message 0 (QuickMatch None)].

(** Four sockets: two are paired, the third creates a room, the fourth
    waits for a quick match. *)
Definition trace_rooms_and_waiter : list Event :=
  [Connection; Connection; Connection; Connection;
   Message 0 (QuickMatch None); Message 1 (QuickMatch (Some "basic"));
   Message 2 CreateRoom; Message 3 (QuickMatch None)].

(** The dictionary words of two characters or more that [canMake] accepts on
    the given letters: what the loop of [countDictionaryMatches] counts. *)
Definition formable_words (letters : list ascii) (ws : list string) : list string :=
  filter (fun w => 2 ≤ String.length w ∧ canMake w letters = true) ws.

(** The contract of [Math.random()]: every draw lies in the interval [0, 1). *)
Definition unit_interval (mathRandom : N -> Q) : Prop :=
  ∀ k, (0 <= mathRandom k)%Q ∧ (mathRandom k < 1)%Q.

(** What holds of the game state of a room at all times: the turn is 1 or 2, the scores are the sums of
    the lengths of the words found, the set of found words is that of the
    list, no word is listed twice, every word listed is non-empty and passes
    [isWordValid] on the letters, and the letters are as dealt. *)
Definition state_ok (dict : list string) (st : GameState) : Prop :=
  (turn st = 1%Z ∨ turn st = 2%Z)
  ∧ p1Score st = lengthsBy (fun b => (b =? 1)%Z) (foundWords st)
  ∧ p2Score st = lengthsBy (fun b => negb (b =? 1)%Z) (foundWords st)
  ∧ foundWordsSet st = list_to_set (word <$> foundWords st)
  ∧ NoDup (word <$> foundWords st)
  ∧ Forall (fun f => word f ≠ "" ∧ isWordValid dict (word f) (letters st) = true)
           (foundWords st)
  ∧ letters st ⊆+ alphabet
  ∧ length (letters st) = pool_size (mode st).

(** What holds of a room of the registry at all times: it is filed under its
    own id, holds
    one or two players, has a game state once it holds two, and its game
    state, if any, is as [state_ok] says. *)
Definition room_ok (dict : list string) (rid : string) (room : Room) : Prop :=
  room_id room = rid
  ∧ 1 ≤ length (players room) ≤ 2
  ∧ (length (players room) = 2 → is_Some (state room))
  ∧ (∀ st, state room = Some st → state_ok dict st).

(** The messages about a game in progress, as opposed to those that ask for
    a room. *)
Definition game_message (msg : ClientMsg) : Prop :=
  match msg with
  | CreateRoom | JoinRoom _ _ | QuickMatch _ => False
  | StartGame _ | SubmitWord _ _ | GetState | Unhandled => True
  end.

(** A source of random bytes that repeats itself: every id drawn from it is
    the same. *)
Definition crypto_same : N -> N := fun _ => 171%N.

(** The same bytes as [crypto_count] but for the third one. *)
Definition crypto_count_but_third : N -> N :=
  fun k => if (k =? 2)%N then 0%N else (171 + k)%N.

(** Two sockets on a server whose random bytes repeat: the first creates a
    room. *)
Definition trace_first_creates : list Event :=
  [Connection; Connection; Message 0 CreateRoom].

(** ** Loading the dictionary (the [try] block after [serverDictionary]) *)

(** The ASCII characters that [String.prototype.trim] removes: tab, line
    feed, vertical tab, form feed, carriage return and space. *)
Definition is_space (c : ascii) : bool :=
  let n := nat_of_ascii c in
  ((9 <=? n) && (n <=? 13)) || (n =? 32).

Fixpoint drop_spaces (l : list ascii) : list ascii :=
  match l with
  | c :: rest => if is_space c then drop_spaces rest else l
  | [] => []
  end.

(** [w.trim()] on the characters of [w]. *)
Definition trim (l : list ascii) : list ascii :=
  reverse (drop_spaces (reverse (drop_spaces l))).

(** [text.split(/\r?\n/)]: the text is cut at every line feed, together with
    the carriage return that may precede it.  [cur] holds the characters of the
    current piece, last one first. *)
Fixpoint split_lines (cur : list ascii) (text : list ascii) : list (list ascii) :=
  match text with
  | [] => [reverse cur]
  | c :: rest =>
      if decide (c = "010"%char)
      then reverse (match cur with
                    | r :: cur' => if decide (r = "013"%char) then cur' else cur
                    | [] => []
                    end) :: split_lines [] rest
      else split_lines (c :: cur) rest
  end.

(** [forEach(w => serverDictionary.add(w))]: a [Set] keeps the first
    occurrence of each word, in insertion order. *)
Definition add_all (ws : list string) : list string :=
  foldl (fun set w => if decide (w ∈ set) then set else set ++ [w]) [] ws.

(** The dictionary after start-up: the lines of words.txt, trimmed,
    lower-cased, the empty ones dropped; nothing when the file cannot be read
    ([None]), as the [catch] leaves the set empty. *)
Definition loadDictionary (file : option string) : list string :=
  match file with
  | None => []
  | Some text =>
      add_all
        (filter (fun w => w ≠ "")
           (map (fun line => toLowerCase (string_of_list_ascii (trim line)))
                (split_lines [] (list_ascii_of_string text))))
  end.

(** A line of words.txt: an entry between two runs of white space.  The
    entry holds no line feed and neither begins nor ends with white space; it
    may be empty.  The runs hold no line feed
    either.  A carriage return that ends the line belongs to the run after
    the entry. *)
Record Line := { indent : list ascii; entry : string; trailer : list ascii }.

Definition is_padding (l : list ascii) : bool :=
  forallb (fun c => is_space c && negb (Ascii.eqb c "010")) l.

Definition is_entry (w : string) : bool :=
  let chars := list_ascii_of_string w in
  forallb (fun c => negb (Ascii.eqb c "010")) chars
  && match chars with
     | [] => true
     | c :: _ => negb (is_space c) && negb (is_space (List.last chars c))
     end.

Definition well_formed_line (l : Line) : Prop :=
  is_padding (indent l) = true ∧ is_entry (entry l) = true
  ∧ is_padding (trailer l) = true.

Definition line_chars (l : Line) : list ascii :=
  indent l ++ list_ascii_of_string (entry l) ++ trailer l.

(** The text of a file, from its lines: a line feed between any two. *)
Fixpoint file_of_lines (lines : list Line) : list ascii :=
  match lines with
  | [] => []
  | [l] => line_chars l
  | l :: rest => line_chars l ++ "010"%char :: file_of_lines rest
  end.

(** What [split_lines] does to the piece before a line feed. *)
Definition strip_cr (cur : list ascii) : list ascii :=
  match cur with
  | r :: cur' => if decide (r = "013"%char) then cur' else cur
  | [] => []
  end.

(** The files the model of the loader speaks for: outside ASCII,
    [String.prototype.trim] removes more characters than [is_space] knows
    (U+00A0 and U+FEFF among them) and [toLowerCase] maps more capitals. *)
Definition ascii_only (text : string) : Prop :=
  forallb (fun c => nat_of_ascii c <? 128) (list_ascii_of_string text) = true.

(** [lines] are the lines of the file [text]. *)
Definition lines_of_file (text : string) (lines : list Line) : Prop :=
  Forall well_formed_line lines ∧ list_ascii_of_string text = file_of_lines lines.

(** The entries of the lines in lower case, the empty ones left out. *)
Definition entries (lines : list Line) : list string :=
  filter (fun w => w ≠ "") (map (fun l => toLowerCase (entry l)) lines).

(** An example of a words.txt, and its lines. *)
Definition words_txt_example : string :=
  string_of_list_ascii
    (list_ascii_of_string "Cab" ++ ["013"; "010"]%char
     ++ list_ascii_of_string "  ice cream " ++ ["010"; "010"]%char
     ++ list_ascii_of_string "CAB" ++ ["010"]%char).

Definition words_txt_lines : list Line :=
  [ {| indent := []; entry := "Cab"; trailer := ["013"%char] |};
    {| indent := [" "; " "]%char; entry := "ice cream"; trailer := [" "%char] |};
    {| indent := []; entry := ""; trailer := [] |};
    {| indent := []; entry := "CAB"; trailer := [] |};
    {| indent := []; entry := ""; trailer := [] |} ].

(** The events that are game messages, from any socket. *)
Definition game_event (ev : Event) : Prop :=
  match ev with
  | Message _ msg => game_message msg
  | _ => False
  end.

(** A small dictionary: three words that the letters A to E can make. *)
Definition dictionary_abcde : list string := ["cab"; "bad"; "bed"].

(** What follows an accepted word in the example of a resubmission. *)
Definition trace_game_goes_on : list Event :=
  [Message 1 (SubmitWord "bad" 2); Message 0 GetState; Message 1 (StartGame None)].

(** What the host of a room may send after the other player has left. *)
Definition trace_host_goes_on : list Event :=
  [Message 0 (StartGame None); Message 0 GetState; Message 0 (SubmitWord "bad" 1)].

(** Closed decidable facts are settled by evaluation. *)
Ltac by_evaluation := apply (bool_decide_unpack _); vm_compute; exact I.

(** * Properties *)

(** ** Dictionary oracle *)

Lemma occurrences_cons c x l :
  occurrences c (x :: l) = (if decide (x = c) then 1 else 0) + occurrences c l.
Proof.
  unfold occurrences. rewrite filter_cons. destruct (decide (x = c)); reflexivity.
Qed.

Lemma tally_from_lookup (lettersArr : list ascii) (m : gmap ascii nat) c :
  default 0 (foldl (fun counts l => <[l := default 0 (counts !! l) + 1]> counts) m lettersArr !! c)
  = default 0 (m !! c) + occurrences c lettersArr.
Proof.
  revert m. induction lettersArr as [|l ls IH]; intros m; simpl.
  - unfold occurrences. simpl. lia.
  - rewrite IH, occurrences_cons.
    destruct (decide (l = c)) as [->|Hne].
    + rewrite lookup_insert_eq. simpl. lia.
    + rewrite lookup_insert_ne by done. lia.
Qed.

Lemma tally_lookup (lettersArr : list ascii) c :
  default 0 (tally lettersArr !! c) = occurrences c lettersArr.
Proof. unfold tally. rewrite tally_from_lookup, lookup_empty. reflexivity. Qed.

Lemma canMake_loop_spec (chs : list ascii) (counts : gmap ascii nat) :
  canMake_loop chs counts = true ↔ ∀ c, occurrences c chs ≤ default 0 (counts !! c).
Proof.
  revert counts. induction chs as [|ch rest IH]; intros counts; simpl.
  - split; [intros _ c; unfold occurrences; simpl; lia | done].
  - destruct (counts !! ch) as [[|n]|] eqn:Hch.
    + split; [done | intros H; specialize (H ch)].
      rewrite occurrences_cons, Hch, decide_True in H by done. simpl in H. lia.
    + rewrite IH. split; intros H c; specialize (H c); rewrite occurrences_cons in *.
      * destruct (decide (ch = c)) as [->|Hne].
        -- rewrite lookup_insert_eq in H. rewrite Hch. simpl in *. lia.
        -- rewrite lookup_insert_ne in H by done. simpl. lia.
      * destruct (decide (ch = c)) as [->|Hne].
        -- rewrite lookup_insert_eq. rewrite Hch in H. simpl in *. lia.
        -- rewrite lookup_insert_ne by done. simpl in H. lia.
    + split; [done | intros H; specialize (H ch)].
      rewrite occurrences_cons, Hch, decide_True in H by done. simpl in H. lia.
Qed.

(** [canMake] is the multiset inclusion of the characters of the word, as
    they are written, in the letters it is given. *)
Lemma canMake_multiset (w : string) (lettersArr : list ascii) :
  canMake w lettersArr = true
  ↔ ∀ c, occurrences c (list_ascii_of_string w) ≤ occurrences c lettersArr.
Proof.
  unfold canMake. rewrite canMake_loop_spec.
  split; intros H c; specialize (H c); rewrite tally_lookup in *; done.
Qed.

(** Without a dictionary [isWordValid] is [canMake] on the lower-cased
    letters; the word is passed on as submitted. *)
Lemma isWordValid_no_dictionary (w : string) (lettersArr : list ascii) :
  isWordValid [] w lettersArr = canMake w (map toLowerCase_char lettersArr).
Proof. reflexivity. Qed.

(** The two examples of the specification. *)
Example canMake_aab :
  isWordValid [] "aab" ["a"; "a"; "b"]%char = true
  ∧ canFormFromLetters "aab" ["a"; "a"; "b"]%char = true.
Proof. split; vm_compute; reflexivity. Qed.

Example canMake_aaa :
  isWordValid [] "aaa" ["a"; "a"; "b"]%char = false
  ∧ canFormFromLetters "aaa" ["a"; "a"; "b"]%char = false.
Proof. split; vm_compute; reflexivity. Qed.

(** C3.  The letters check of [isWordValid] lower-cases the letters but not
    the word: an upper-case word is refused on the very letters it is spelled
    with, although the dictionary lookup of the same function folds its case
    and the test of the specification accepts it.  The lower-case spelling
    passes. *)
Theorem C3_upper_case_word_refused :
  let pool := ["C"; "A"; "B"; "D"; "E"]%char in
  isWordValid ["cab"] "CAB" pool = false
  ∧ dictionary_has ["cab"] (toLowerCase "CAB") = true
  ∧ canFormFromLetters "CAB" pool = true
  ∧ isWordValid ["cab"] "cab" pool = true
  ∧ isWordValid [] "A" ["A"]%char = false
  ∧ canFormFromLetters "A" ["A"]%char = true.
Proof. split_and!; vm_compute; reflexivity. Qed.

(** C6, counterexample.  The count does not look at the letters when no
    dictionary is loaded: it is 5 even for no letters at all. *)
Lemma C6_counterexample :
  countDictionaryMatches [] [] = 5
  ∧ ¬ (∃ l1 l2, countDictionaryMatches [] l1 ≠ countDictionaryMatches [] l2).
Proof. split; [reflexivity | intros (l1 & l2 & H); apply H; reflexivity]. Qed.

(** C6 (amended).  With no dictionary entry loaded, the feasibility count is
    the constant 5 for every candidate letter sequence. *)
Theorem C6_empty_dictionary_count_is_five (lettersArr : list ascii) :
  countDictionaryMatches [] lettersArr = 5.
Proof. reflexivity. Qed.

(** ** Letter-set generator *)

(** When no candidate reaches the required count, the generator returns the
    first [size] cells of [alpha] as the shuffles left it. *)
Lemma pick_loop_exhausted dict rand attempts size n alpha k :
  (∀ cand, countDictionaryMatches dict cand < n) →
  pick_loop dict rand attempts size n alpha k
  = (take size (shuffled rand attempts alpha k).1, (shuffled rand attempts alpha k).2).
Proof.
  intros Hlow. revert alpha k.
  induction attempts as [|attempts IH]; intros alpha k; simpl; [reflexivity|].
  destruct (shuffleArray rand alpha k) as [alpha' k'].
  specialize (Hlow (take size alpha')).
  destruct (Nat.leb_spec n (countDictionaryMatches dict (take size alpha'))); [lia|].
  apply IH.
Qed.

(** A dictionary of one word never yields three matches. *)
Lemma one_word_dictionary_count w cand : countDictionaryMatches [w] cand < 3.
Proof.
  unfold countDictionaryMatches. simpl.
  destruct (String.length w <? 2); [lia|].
  destruct (canMake w _); simpl; lia.
Qed.

(** A draw close to one selects the cell itself. *)
Lemma random_high_index k i : i < 26 → random_index random_high k (i + 1) = i.
Proof.
  intros Hi. do 26 (destruct i as [|i]; [vm_compute; reflexivity|]). lia.
Qed.

(** C4.  One draw of zero followed by draws close to one, and a dictionary no
    candidate satisfies: the first shuffle exchanges A and Z, the following
    ones change nothing, and after the ten thousand attempts the fallback
    returns Z, B, C, D, E, not the first five letters of the alphabet. *)
Theorem C4_fallback_reads_the_shuffled_array :
  (pickLettersWithAtLeastNWords ["zzz"] random_zero_then_high 5 3 0).1
  = list_ascii_of_string "ZBCDE"
  ∧ take 5 alphabet = list_ascii_of_string "ABCDE"
  ∧ (shuffleArray random_zero_then_high alphabet 0).1
    = list_ascii_of_string "ZBCDEFGHIJKLMNOPQRSTUVWXYA".
Proof. split_and!; vm_compute; reflexivity. Qed.

(** With draws that vary, the fallback is no prefix of the alphabet either. *)
Example fallback_under_varied_draws :
  (pickLettersWithAtLeastNWords ["zzz"] random_varied 5 3 0).1
  = list_ascii_of_string "RSEZL".
Proof. vm_compute; reflexivity. Qed.

(** ** Room state machine *)

Lemma submitWord_accepted dict st w p st' :
  submitWord dict st w p = Accepted st' →
  st' = {| mode := mode st;
           letters := letters st;
           turn := if (p =? 1)%Z then 2 else 1;
           p1Score := if (p =? 1)%Z then p1Score st + String.length w else p1Score st;
           p2Score := if (p =? 1)%Z then p2Score st else p2Score st + String.length w;
           foundWords := foundWords st ++ [{| word := w; by_ := p |}];
           foundWordsSet := {[w]} ∪ foundWordsSet st |}.
Proof.
  unfold submitWord. intros H.
  destruct (String.eqb w ""); [discriminate|].
  destruct (bool_decide _); [discriminate|].
  destruct (negb _); [discriminate|].
  by injection H as <-.
Qed.

(** After an accepted move the turn is the player opposite to the index
    the payload carried, whatever the turn was. *)
Lemma submitWord_turn dict st w p st' :
  submitWord dict st w p = Accepted st' →
  turn st' = if (p =? 1)%Z then 2%Z else 1%Z.
Proof. intros H. apply submitWord_accepted in H. by subst st'. Qed.

(** C1.  The turn is computed from the submitted player index, not from the
    current turn: from a fresh state (turn 1) one accepted move of player 2
    leaves the turn at 1, and two accepted moves of player 1 leave it at 2. *)
Theorem C1_turn_follows_the_submitter :
  let st0 := (initGameState [] random_high "basic" 0).1 in
  turn st0 = 1%Z
  ∧ turn <$> acceptedMoves [] st0 [("ab", 2%Z)] = Some 1%Z
  ∧ turn <$> acceptedMoves [] st0 [("ab", 1%Z); ("ba", 1%Z)] = Some 2%Z
  ∧ turn <$> acceptedMoves [] st0 [("ab", 1%Z); ("ba", 2%Z)] = Some 1%Z.
Proof. split_and!; vm_compute; reflexivity. Qed.

Lemma lengthsBy_app p l1 l2 : lengthsBy p (l1 ++ l2) = lengthsBy p l1 + lengthsBy p l2.
Proof. unfold lengthsBy. by rewrite filter_app, sum_list_with_app. Qed.

Lemma lengthsBy_cons p f l :
  lengthsBy p (f :: l) = (if p (by_ f) then String.length (word f) else 0) + lengthsBy p l.
Proof.
  unfold lengthsBy. rewrite filter_cons.
  destruct (p (by_ f)); simpl; [|destruct (decide (false = true))]; done.
Qed.

(** What a run of accepted moves adds to the state. *)
Lemma acceptedMoves_effect dict st moves st' :
  acceptedMoves dict st moves = Some st' →
  foundWords st' = foundWords st ++ map found moves
  ∧ p1Score st' = p1Score st + lengthsBy (fun b => (b =? 1)%Z) (map found moves)
  ∧ p2Score st' = p2Score st + lengthsBy (fun b => negb (b =? 1)%Z) (map found moves).
Proof.
  revert st. induction moves as [|[w p] moves IH]; intros st H; simpl in H.
  - injection H as <-. rewrite app_nil_r. unfold lengthsBy. simpl. repeat split; lia.
  - destruct (submitWord dict st w p) as [| |st1] eqn:Hsub; try discriminate.
    apply submitWord_accepted in Hsub. destruct (IH _ H) as (Hf & H1 & H2).
    rewrite Hf, H1, H2. subst st1. cbn [foundWords p1Score p2Score map].
    rewrite !lengthsBy_cons. cbn [found by_ word fst snd].
    rewrite <- app_assoc. destruct (p =? 1)%Z; simpl; repeat split; lia.
Qed.

(** When every index is 1 or 2, "not 1" and "2" select the same words. *)
Lemma lengthsBy_not_1_is_2 (moves : list (string * Z)) :
  Forall (fun m => m.2 = 1%Z ∨ m.2 = 2%Z) moves →
  lengthsBy (fun b => negb (b =? 1)%Z) (map found moves)
  = lengthsBy (fun b => (b =? 2)%Z) (map found moves).
Proof.
  induction 1 as [|[w p] moves Hp _ IH]; [reflexivity|].
  cbn [map]. rewrite !lengthsBy_cons, IH. cbn [found by_ word fst snd] in *.
  destruct Hp as [-> | ->]; reflexivity.
Qed.

Lemma initGameState_fresh dict rand m k :
  let st := (initGameState dict rand m k).1 in
  mode st = m ∧ turn st = 1%Z ∧ p1Score st = 0 ∧ p2Score st = 0
  ∧ foundWords st = [] ∧ foundWordsSet st = ∅
  ∧ letters st = (pickLettersWithAtLeastNWords dict rand (pool_size m) 3 k).1.
Proof.
  unfold initGameState.
  destruct (pickLettersWithAtLeastNWords dict rand (pool_size m) 3 k); simpl.
  repeat split.
Qed.

(** C2, counterexample.  An accepted move with a player index other than 1
    and 2 is scored for player 2 although no word is recorded for player 2. *)
Lemma C2_counterexample :
  ∃ st, acceptedMoves [] (initGameState [] random_high "basic" 0).1 [("ab", 3%Z)] = Some st
        ∧ p2Score st = 2
        ∧ lengthsBy (fun b => (b =? 2)%Z) (foundWords st) = 0.
Proof. eexists. split_and!; vm_compute; reflexivity. Qed.

(** C2 (amended).  After any sequence of accepted submit-word moves applied
    to a freshly initialized game state, [p1Score] is the sum of the lengths of
    the found words whose [by] field is 1 and [p2Score] the sum of the lengths
    of those whose [by] field is not 1; the latter are the words whose [by]
    field is 2 when every submitted player index is 1 or 2. *)
Theorem C2_scores_are_sums_of_lengths dict rand m k moves st :
  acceptedMoves dict (initGameState dict rand m k).1 moves = Some st →
  p1Score st = lengthsBy (fun b => (b =? 1)%Z) (foundWords st)
  ∧ p2Score st = lengthsBy (fun b => negb (b =? 1)%Z) (foundWords st)
  ∧ (Forall (fun mv => mv.2 = 1%Z ∨ mv.2 = 2%Z) moves →
     p2Score st = lengthsBy (fun b => (b =? 2)%Z) (foundWords st)).
Proof.
  intros H. apply acceptedMoves_effect in H as (Hf & H1 & H2).
  destruct (initGameState_fresh dict rand m k) as (_ & _ & Hp1 & Hp2 & Hfw & _).
  cbv zeta in *. rewrite Hp1 in H1. rewrite Hp2 in H2. rewrite Hfw in Hf.
  simpl in Hf. rewrite Hf, H1, H2. repeat split.
  intros Hall. by rewrite lengthsBy_not_1_is_2.
Qed.

(** C2, an instance: three accepted moves, of the indices 1, 2 and 7. *)
Lemma C2_scores_witness :
  ∃ st,
    acceptedMoves [] (initGameState [] random_high "basic" 0).1
                  [("ab", 1%Z); ("bad", 2%Z); ("e", 7%Z)] = Some st
    ∧ p1Score st = lengthsBy (fun b => (b =? 1)%Z) (foundWords st)
    ∧ p2Score st = lengthsBy (fun b => negb (b =? 1)%Z) (foundWords st).
Proof.
  eexists. split; [vm_compute; reflexivity|].
  split; eapply (C2_scores_are_sums_of_lengths [] random_high "basic" 0%N
                   [("ab", 1%Z); ("bad", 2%Z); ("e", 7%Z)]);
    vm_compute; reflexivity.
Defined.

(** ** Matchmaking registry *)

Section Registry.
Variable dict : list string.
Variable rand : N -> Q.
Variable crypto : N -> N.

Lemma quickMatch_waits (S : Server) ws m :
  waiting S = [] →
  quickMatch dict rand crypto ws m S
  = ({| rooms := rooms S; waiting := [ws]; roomId := roomId S;
        connections := connections S; closed := closed S;
        randomDraws := randomDraws S; cryptoDraws := cryptoDraws S |},
     [(ws, Waiting)]).
Proof. intros H. unfold quickMatch. rewrite H. reflexivity. Qed.

Lemma quickMatch_pairs (S : Server) ws m peer rest :
  waiting S = peer :: rest →
  quickMatch dict rand crypto ws m S
  = (let rid := (makeId crypto 3 (cryptoDraws S)).1 in
     let st := (initGameState dict rand (mode_or_default m) (randomDraws S)).1 in
     ({| rooms := <[rid := {| room_id := rid; players := [peer; ws]; state := Some st |}]>
                    (rooms S);
         waiting := rest;
         roomId := <[ws := rid]> (<[peer := rid]> (roomId S));
         connections := connections S; closed := closed S;
         randomDraws := (initGameState dict rand (mode_or_default m) (randomDraws S)).2;
         cryptoDraws := (makeId crypto 3 (cryptoDraws S)).2 |},
      [(peer, Matched rid 1 st); (ws, Matched rid 2 st)])).
Proof.
  intros H. unfold quickMatch. rewrite H.
  destruct (makeId crypto 3 (cryptoDraws S)) as [rid c'].
  destruct (initGameState dict rand (mode_or_default m) (randomDraws S)) as [st k'].
  reflexivity.
Qed.

Lemma joinRoom_joins (S : Server) ws rid m room :
  rooms S !! rid = Some room →
  length (players room) < 2 →
  joinRoom dict rand ws rid m S
  = (let st := (initGameState dict rand (mode_or_default m) (randomDraws S)).1 in
     ({| rooms := <[rid := {| room_id := room_id room; players := players room ++ [ws];
                              state := Some st |}]> (rooms S);
         waiting := waiting S;
         roomId := <[ws := rid]> (roomId S);
         connections := connections S; closed := closed S;
         randomDraws := (initGameState dict rand (mode_or_default m) (randomDraws S)).2;
         cryptoDraws := cryptoDraws S |},
      imap (fun i p => (p, RoomJoined rid (i + 1) st)) (players room ++ [ws]))).
Proof.
  intros Hroom Hlen. unfold joinRoom. rewrite Hroom.
  destruct (Nat.leb_spec 2 (length (players room))); [lia|].
  destruct (initGameState dict rand (mode_or_default m) (randomDraws S)) as [st k'].
  reflexivity.
Qed.

(** C8.  A join-room event on a room that already holds two players sends the
    error "Room full" to the joiner and nothing else, and leaves the whole
    server state, hence the player list and the game state of the room, as it
    was. *)
Theorem C8_join_full_room_is_refused (S : Server) ws rid m room :
  rooms S !! rid = Some room →
  length (players room) = 2 →
  handle dict rand crypto S (Message ws (JoinRoom rid m))
  = (S, [(ws, ErrorMsg "Room full")]).
Proof.
  intros Hroom Hfull. cbn [handle onMessage]. unfold joinRoom.
  rewrite Hroom, Hfull. reflexivity.
Qed.

(** C9.  From an empty waiting queue, quick-match from [A] then quick-match
    from a distinct [B]: [A] is told to wait; then one room is written to the
    registry under a new id, with [A] as player 1 and [B] as player 2 and a
    newly initialized game state, both sockets point to it, both are sent
    [matched] with their index, and the queue is empty again. *)
Theorem C9_quick_match_pairs_in_order (S : Server) (A B : conn) mA mB :
  waiting S = [] →
  A ≠ B →
  let first := handle dict rand crypto S (Message A (QuickMatch mA)) in
  let second := handle dict rand crypto first.1 (Message B (QuickMatch mB)) in
  let rid := (makeId crypto 3 (cryptoDraws S)).1 in
  let st := (initGameState dict rand (mode_or_default mB) (randomDraws S)).1 in
  first.2 = [(A, Waiting)]
  ∧ rooms first.1 = rooms S
  ∧ waiting first.1 = [A]
  ∧ rooms second.1
    = <[rid := {| room_id := rid; players := [A; B]; state := Some st |}]> (rooms S)
  ∧ waiting second.1 = []
  ∧ roomId second.1 !! A = Some rid
  ∧ roomId second.1 !! B = Some rid
  ∧ second.2 = [(A, Matched rid 1 st); (B, Matched rid 2 st)]
  ∧ turn st = 1%Z ∧ p1Score st = 0 ∧ p2Score st = 0 ∧ foundWords st = [].
Proof.
  intros Hempty Hne. cbv zeta. cbn [handle onMessage].
  rewrite (quickMatch_waits S A mA Hempty). cbn [fst snd].
  rewrite (quickMatch_pairs _ B mB A []) by reflexivity.
  cbv zeta. cbn [fst snd rooms waiting roomId randomDraws cryptoDraws].
  destruct (initGameState_fresh dict rand (mode_or_default mB) (randomDraws S))
    as (_ & Ht & Hp1 & Hp2 & Hfw & _).
  split_and!; try done.
  - by rewrite lookup_insert_ne, lookup_insert_eq.
  - by rewrite lookup_insert_eq.
Qed.

(** C10.  A connection that is alone in the waiting queue and sends
    quick-match again is taken from the queue and paired with itself: the new
    room lists it as player 1 and as player 2, and it is sent [matched] twice,
    with index 1 and with index 2. *)
Theorem C10_quick_match_pairs_a_waiter_with_itself (S : Server) (A : conn) m :
  waiting S = [A] →
  let after := handle dict rand crypto S (Message A (QuickMatch m)) in
  let rid := (makeId crypto 3 (cryptoDraws S)).1 in
  let st := (initGameState dict rand (mode_or_default m) (randomDraws S)).1 in
  rooms after.1
  = <[rid := {| room_id := rid; players := [A; A]; state := Some st |}]> (rooms S)
  ∧ waiting after.1 = []
  ∧ roomId after.1 !! A = Some rid
  ∧ after.2 = [(A, Matched rid 1 st); (A, Matched rid 2 st)].
Proof.
  intros Hq. cbv zeta. cbn [handle onMessage].
  rewrite (quickMatch_pairs S A m A [] Hq).
  cbv zeta. cbn [fst snd rooms waiting roomId].
  split_and!; try done. by rewrite lookup_insert_eq.
Qed.
End Registry.

(** ** Reachable states *)

Section Reachable.
Variable dict : list string.
Variable rand : N -> Q.
Variable crypto : N -> N.

Lemma roomOf_Some ws (S : Server) rid room :
  roomOf ws S = Some (rid, room) → rooms S !! rid = Some room.
Proof.
  unfold roomOf. destruct (roomId S !! ws) as [r|]; [|done]. simpl.
  destruct (rooms S !! r) eqn:Hr; [|done]. simpl. by intros [= <- <-].
Qed.

Lemma run_cons (S : Server) ev evs :
  (run dict rand crypto S (ev :: evs)).1
  = (run dict rand crypto (handle dict rand crypto S ev).1 evs).1.
Proof.
  cbn [run]. destruct (handle dict rand crypto S ev) as [S1 out1].
  cbn [fst]. by destruct (run dict rand crypto S1 evs).
Qed.

Lemma reachable_run (S : Server) evs :
  reachable dict rand crypto S →
  all_enabled dict rand crypto S evs →
  reachable dict rand crypto (run dict rand crypto S evs).1.
Proof.
  revert S. induction evs as [|ev evs IH]; intros S HS Hen; [done|].
  destruct Hen as [Hev Hrest]. rewrite run_cons. apply IH; [|done].
  by constructor.
Qed.

Lemma reachable_disciplined_run (S : Server) evs :
  reachable_disciplined dict rand crypto S →
  all_disciplined dict rand crypto S evs →
  reachable_disciplined dict rand crypto (run dict rand crypto S evs).1.
Proof.
  revert S. induction evs as [|ev evs IH]; intros S HS Hen; [done|].
  destruct Hen as (Hev & Hd & Hrest). rewrite run_cons. apply IH; [|done].
  by constructor.
Qed.

(** How one event changes the player lists of the registry: a room of the new
    state has the players it had, or was written by create-room, by a join
    that succeeded, or by a pairing of quick-match. *)
Lemma handle_players (S : Server) ev rid room' :
  rooms (handle dict rand crypto S ev).1 !! rid = Some room' →
  (∃ room, rooms S !! rid = Some room ∧ players room' = players room)
  ∨ (∃ ws, ev = Message ws CreateRoom ∧ players room' = [ws])
  ∨ (∃ ws m room, ev = Message ws (JoinRoom rid m) ∧ rooms S !! rid = Some room
       ∧ length (players room) < 2 ∧ players room' = players room ++ [ws])
  ∨ (∃ ws m peer rest, ev = Message ws (QuickMatch m) ∧ waiting S = peer :: rest
       ∧ players room' = [peer; ws]).
Proof.
  destruct ev as [|ws|ws [|r m|m|m|w p| |]]; cbn [handle onMessage].
  - unfold onConnection. destruct (makeId crypto 4 (cryptoDraws S)). cbn. eauto.
  - unfold onClose. destruct (roomOf ws S) as [[r room]|]; cbn; [|by eauto].
    intros [_ H]%lookup_delete_Some. eauto.
  - unfold createRoom. destruct (makeId crypto 3 (cryptoDraws S)) as [r c']. cbn.
    intros [[_ <-]|[_ H]]%lookup_insert_Some; [right; left|]; eauto.
  - unfold joinRoom. destruct (rooms S !! r) as [room|] eqn:Hr; [|by eauto].
    destruct (Nat.leb_spec 2 (length (players room))); [by eauto|].
    destruct (initGameState dict rand (mode_or_default m) (randomDraws S)). cbn.
    intros [[<- <-]|[_ H']]%lookup_insert_Some; [|by eauto].
    right; right; left. exists ws, m, room. done.
  - unfold quickMatch. destruct (waiting S) as [|peer rest] eqn:Hw; [cbn; by eauto|].
    destruct (makeId crypto 3 (cryptoDraws S)) as [r c'].
    destruct (initGameState dict rand (mode_or_default m) (randomDraws S)). cbn.
    intros [[_ <-]|[_ H']]%lookup_insert_Some; [|by eauto].
    right; right; right. exists ws, m, peer, rest. done.
  - unfold startGame. destruct (roomOf ws S) as [[r room]|] eqn:Hr; [|by eauto].
    apply roomOf_Some in Hr. destruct (state room); [by eauto|].
    destruct (initGameState dict rand (mode_or_default m) (randomDraws S)). cbn.
    intros [[<- <-]|[_ H']]%lookup_insert_Some; eauto.
  - unfold onSubmitWord. destruct (roomOf ws S) as [[r room]|] eqn:Hr; [|by eauto].
    apply roomOf_Some in Hr. destruct (state room); [|by eauto].
    destruct (submitWord dict g w p); [by eauto|by eauto|]. cbn.
    intros [[<- <-]|[_ H']]%lookup_insert_Some; eauto.
  - unfold getState. destruct (roomOf ws S) as [[r room]|]; eauto.
  - eauto.
Qed.

(** How one event changes the waiting queue. *)
Lemma handle_waiting (S : Server) ev :
  waiting (handle dict rand crypto S ev).1 = waiting S
  ∨ (∃ ws, ev = Close ws ∧ waiting (handle dict rand crypto S ev).1
                           = remove_first ws (waiting S))
  ∨ (∃ ws m, ev = Message ws (QuickMatch m) ∧ waiting S = []
       ∧ waiting (handle dict rand crypto S ev).1 = [ws])
  ∨ (∃ ws m peer, ev = Message ws (QuickMatch m)
       ∧ waiting S = peer :: waiting (handle dict rand crypto S ev).1).
Proof.
  destruct ev as [|ws|ws [|r m|m|m|w p| |]]; cbn [handle onMessage].
  - unfold onConnection. destruct (makeId crypto 4 (cryptoDraws S)). by left.
  - unfold onClose. destruct (roomOf ws S) as [[r room]|]; cbn; eauto.
  - unfold createRoom. destruct (makeId crypto 3 (cryptoDraws S)). by left.
  - unfold joinRoom. destruct (rooms S !! r) as [room|]; [|by left].
    destruct (2 <=? length (players room)); [by left|].
    destruct (initGameState dict rand (mode_or_default m) (randomDraws S)). by left.
  - unfold quickMatch. destruct (waiting S) as [|peer rest] eqn:Hw.
    + right; right; left. by exists ws, m.
    + destruct (makeId crypto 3 (cryptoDraws S)) as [r c'].
      destruct (initGameState dict rand (mode_or_default m) (randomDraws S)).
      right; right; right. by exists ws, m, peer.
  - unfold startGame. destruct (roomOf ws S) as [[r room]|]; [|by left].
    destruct (state room); [by left|].
    destruct (initGameState dict rand (mode_or_default m) (randomDraws S)). by left.
  - unfold onSubmitWord. destruct (roomOf ws S) as [[r room]|]; [|by left].
    destruct (state room); [|by left].
    destruct (submitWord dict g w p); by left.
  - unfold getState. destruct (roomOf ws S) as [[r room]|]; by left.
  - by left.
Qed.

(** In every reachable state a room holds one or two players. *)
Lemma reachable_rooms_sized (S : Server) :
  reachable dict rand crypto S → rooms_sized S.
Proof.
  induction 1 as [|S ev _ IH _]; [apply map_Forall_empty|].
  intros rid room' Hroom'.
  destruct (handle_players _ _ _ _ Hroom')
    as [(room & Hr & ->)|[(ws & _ & ->)|[(ws & m & room & _ & Hr & Hlt & ->)
                                        |(ws & m & peer & rest & _ & _ & ->)]]].
  - by apply (IH rid room).
  - simpl. lia.
  - pose proof (IH rid room Hr). rewrite length_app. simpl. lia.
  - simpl. lia.
Qed.
End Reachable.

(** ** Joining a room *)

(** C5 (amended).  A join-room event on a room of a reachable state that holds
    fewer than two players appends the joiner as player 2 and replaces the
    game state of the room by a newly initialized one, of the mode the join
    asks for (versus by default), whether or not the room had a game state:
    the new state does not depend on the old one. *)
Theorem C5_join_room_starts_a_new_game dict rand crypto (S : Server) ws rid m room :
  reachable dict rand crypto S →
  rooms S !! rid = Some room →
  length (players room) < 2 →
  let after := handle dict rand crypto S (Message ws (JoinRoom rid m)) in
  let st := (initGameState dict rand (mode_or_default m) (randomDraws S)).1 in
  ∃ host,
    players room = [host]
    ∧ rooms after.1
      = <[rid := {| room_id := room_id room; players := [host; ws]; state := Some st |}]>
          (rooms S)
    ∧ roomId after.1 !! ws = Some rid
    ∧ waiting after.1 = waiting S
    ∧ after.2 = [(host, RoomJoined rid 1 st); (ws, RoomJoined rid 2 st)]
    ∧ mode st = mode_or_default m
    ∧ turn st = 1%Z ∧ p1Score st = 0 ∧ p2Score st = 0 ∧ foundWords st = [].
Proof.
  intros Hreach Hroom Hlt. cbv zeta. cbn [handle onMessage].
  rewrite (joinRoom_joins dict rand S ws rid m room Hroom Hlt). cbv zeta.
  cbn [fst snd rooms waiting roomId].
  pose proof (reachable_rooms_sized _ _ _ _ Hreach rid room Hroom) as Hsize.
  cbv beta in Hsize.
  destruct (players room) as [|host [|p ps]] eqn:Hp; simpl in Hsize, Hlt; try lia.
  destruct (initGameState_fresh dict rand (mode_or_default m) (randomDraws S))
    as (Hm & Ht & Hp1 & Hp2 & Hfw & _).
  exists host. split_and!; try done. by rewrite lookup_insert_eq.
Qed.

(** C5, counterexample.  The host of a private room starts the game alone
    and scores; the join of the second player then throws that game state
    away. *)
Lemma C5_counterexample :
  let S := (run [] random_high crypto_count initial trace_host_plays).1 in
  let S' := (handle [] random_high crypto_count S
               (Message 1 (JoinRoom "b3b" (Some "basic")))).1 in
  reachable [] random_high crypto_count S
  ∧ players <$> rooms S !! "b3b" = Some [0]
  ∧ p1Score <$> (rooms S !! "b3b" ≫= state) = Some 3
  ∧ foundWords <$> (rooms S !! "b3b" ≫= state) = Some [{| word := "bad"; by_ := 1 |}]
  ∧ players <$> rooms S' !! "b3b" = Some [0; 1]
  ∧ p1Score <$> (rooms S' !! "b3b" ≫= state) = Some 0
  ∧ foundWords <$> (rooms S' !! "b3b" ≫= state) = Some [].
Proof.
  cbv zeta. split.
  - apply reachable_run; [constructor | by_evaluation].
  - split_and!; vm_compute; reflexivity.
Qed.

(** C5, an instance: the second socket joins the room of the first. *)
Lemma C5_join_room_witness :
  let S := (run [] random_high crypto_count initial trace_host_plays).1 in
  let after := handle [] random_high crypto_count S
                 (Message 1 (JoinRoom "b3b" (Some "basic"))) in
  reachable [] random_high crypto_count S
  ∧ players <$> rooms S !! "b3b" = Some [0]
  ∧ roomId after.1 !! 1 = Some "b3b"
  ∧ waiting after.1 = waiting S.
Proof.
  cbv zeta.
  assert (reachable [] random_high crypto_count
            (run [] random_high crypto_count initial trace_host_plays).1) as Hreach
    by (apply reachable_run; [constructor | by_evaluation]).
  split; [exact Hreach|]. split; [vm_compute; reflexivity|].
  edestruct (C5_join_room_starts_a_new_game [] random_high crypto_count
               (run [] random_high crypto_count initial trace_host_plays).1
               1 "b3b" (Some "basic")) as (host & _ & _ & Hrid & Hw & _);
    [exact Hreach | vm_compute; reflexivity | vm_compute; lia |].
  split; [exact Hrid | exact Hw].
Defined.

(** C8, an instance: a third socket tries to join the room of a pair. *)
Lemma C8_join_full_room_witness :
  let S := (run [] random_high crypto_count initial trace_paired).1 in
  players <$> rooms S !! "b7b" = Some [0; 1]
  ∧ handle [] random_high crypto_count S (Message 2 (JoinRoom "b7b" None))
    = (S, [(2, ErrorMsg "Room full")]).
Proof.
  cbv zeta. split; [vm_compute; reflexivity|].
  eapply C8_join_full_room_is_refused; vm_compute; reflexivity.
Defined.

(** C9, an instance: two sockets ask for a quick match, one after the other. *)
Lemma C9_quick_match_witness :
  let S := (run [] random_high crypto_count initial [Connection; Connection]).1 in
  let first := handle [] random_high crypto_count S (Message 0 (QuickMatch None)) in
  let second := handle [] random_high crypto_count first.1 (Message 1 (QuickMatch None)) in
  waiting S = [] ∧ 0 ≠ 1
  ∧ waiting second.1 = []
  ∧ roomId second.1 !! 0 = roomId second.1 !! 1.
Proof.
  cbv zeta. split; [vm_compute; reflexivity|]. split; [lia|].
  destruct (C9_quick_match_pairs_in_order [] random_high crypto_count
              (run [] random_high crypto_count initial [Connection; Connection]).1
              0 1 None None)
    as (_ & _ & _ & _ & Hw & HA & HB & _); [vm_compute; reflexivity | lia |].
  split; [exact Hw | exact (eq_trans HA (eq_sym HB))].
Defined.

(** C10, an instance: the only waiter asks for a quick match again. *)
Lemma C10_self_pairing_witness :
  let S := (run [] random_high crypto_count initial trace_waiter).1 in
  let after := handle [] random_high crypto_count S (Message 0 (QuickMatch None)) in
  let rid := (makeId crypto_count 3 (cryptoDraws S)).1 in
  let st := (initGameState [] random_high "versus" (randomDraws S)).1 in
  waiting S = [0]
  ∧ waiting after.1 = []
  ∧ after.2 = [(0, Matched rid 1 st); (0, Matched rid 2 st)].
Proof.
  cbv zeta. split; [vm_compute; reflexivity|].
  destruct (C10_quick_match_pairs_a_waiter_with_itself [] random_high crypto_count
              (run [] random_high crypto_count initial trace_waiter).1 0 None)
    as (_ & Hw & _ & Hout); [vm_compute; reflexivity|].
  split; [exact Hw | exact Hout].
Defined.

(** ** The waiting queue *)

Lemma remove_first_elem c ws (queue : list conn) :
  c ∈ remove_first ws queue → c ∈ queue.
Proof.
  induction queue as [|p rest IH]; simpl; [done|].
  destruct (decide (p = ws)); [by right|].
  intros [->|Hin]%elem_of_cons; [by left | right; by apply IH].
Qed.

(** C7, counterexample.  A socket that created a room and then asks for a
    quick match is put in the queue while it is the player of its room. *)
Lemma C7_counterexample :
  let S := (run [] random_high crypto_count initial trace_host_queues).1 in
  reachable [] random_high crypto_count S
  ∧ 0 ∈ waiting S
  ∧ roomId S !! 0 = Some "afb"
  ∧ players <$> rooms S !! "afb" = Some [0]
  ∧ in_room S 0.
Proof.
  cbv zeta. split_and!.
  - apply reachable_run; [constructor | by_evaluation].
  - by_evaluation.
  - vm_compute; reflexivity.
  - vm_compute; reflexivity.
  - by_evaluation.
Qed.

(** * Further properties of the code *)

(** ** [canMake], [isWordValid], [countDictionaryMatches] *)

Lemma occurrences_Permutation c (l1 l2 : list ascii) :
  l1 ≡ₚ l2 → occurrences c l1 = occurrences c l2.
Proof. intros H. unfold occurrences. by rewrite H. Qed.

Lemma occurrences_submseteq (l1 l2 : list ascii) :
  (∀ c, occurrences c l1 ≤ occurrences c l2) ↔ l1 ⊆+ l2.
Proof.
  split.
  - revert l2. induction l1 as [|x l1 IH]; intros l2 H; [apply submseteq_nil_l|].
    assert (x ∈ l2) as [k Hk]%elem_of_Permutation.
    { specialize (H x). rewrite occurrences_cons, decide_True in H by done.
      unfold occurrences in H.
      destruct (filter (fun y => y = x) l2) as [|y ys] eqn:Hf; [simpl in H; lia|].
      assert (y ∈ filter (fun y => y = x) l2) as Hy by (rewrite Hf; by left).
      by apply list_elem_of_filter in Hy as [-> ?]. }
    apply submseteq_cons_l. exists k. split; [done|]. apply IH. intros c.
    specialize (H c). rewrite (occurrences_Permutation c _ _ Hk) in H.
    rewrite !occurrences_cons in H. lia.
  - induction 1 as [|x l1 l2 _ IH|x y l|x l1 l2 _ IH|l1 l2 l3 _ IH1 _ IH2]; intros c.
    + done.
    + specialize (IH c). rewrite !occurrences_cons. lia.
    + rewrite !occurrences_cons. lia.
    + specialize (IH c). rewrite occurrences_cons. lia.
    + specialize (IH1 c). specialize (IH2 c). lia.
Qed.

(** X1.  [canMake] answers true exactly when the characters of the word, as
    written, are included as a multiset in the letters it is given; the order
    of the letters and of the characters is irrelevant. *)
Theorem canMake_is_multiset_inclusion (w : string) (lettersArr : list ascii) :
  canMake w lettersArr = true ↔ list_ascii_of_string w ⊆+ lettersArr.
Proof. rewrite canMake_multiset. apply occurrences_submseteq. Qed.

Lemma canMake_submseteq (w : string) (lettersArr : list ascii) :
  canMake w lettersArr = true ↔ list_ascii_of_string w ⊆+ lettersArr.
Proof. rewrite canMake_multiset. apply occurrences_submseteq. Qed.

Lemma length_list_ascii_of_string (w : string) :
  length (list_ascii_of_string w) = String.length w.
Proof. induction w as [|c w IH]; simpl; [done | by rewrite IH]. Qed.

(** X2.  [isWordValid] accepts a word exactly when the dictionary is empty or
    holds its lower-case form, and the characters of the word as submitted are
    included as a multiset in the lower-cased letters. *)
Theorem isWordValid_accepts_iff (dict : list string) (w : string) (lettersArr : list ascii) :
  isWordValid dict w lettersArr = true
  ↔ (dict = [] ∨ toLowerCase w ∈ dict)
    ∧ list_ascii_of_string w ⊆+ map toLowerCase_char lettersArr.
Proof.
  rewrite <- canMake_submseteq. unfold isWordValid, dictionary_has.
  destruct dict as [|d dict]; simpl.
  - split; [intros H; split; [by left | done] | by intros [_ H]].
  - destruct (bool_decide_reflect (toLowerCase w ∈ d :: dict)) as [Hin|Hout]; simpl.
    + split; [intros H; split; [by right | done] | by intros [_ H]].
    + split; [done | intros [[?|?] _]; done].
Qed.

Lemma isWordValid_true (dict : list string) (w : string) (lettersArr : list ascii) :
  isWordValid dict w lettersArr = true →
  (dict = [] ∨ toLowerCase w ∈ dict)
  ∧ list_ascii_of_string w ⊆+ map toLowerCase_char lettersArr.
Proof.
  unfold isWordValid, dictionary_has. destruct dict as [|d dict]; simpl.
  - intros H%canMake_submseteq. split; [by left | done].
  - destruct (bool_decide_reflect (toLowerCase w ∈ d :: dict)) as [Hin|Hout]; simpl;
      [|done]. intros H%canMake_submseteq. split; [by right | done].
Qed.

(** X3.  A word that [canMake] accepts is at most as long as the letter
    pool, and it stays accepted when letters are added to the pool or the
    pool is reordered. *)
Theorem canMake_length_and_monotone (w : string) (l1 l2 : list ascii) :
  canMake w l1 = true →
  String.length w ≤ length l1
  ∧ (l1 ⊆+ l2 → canMake w l2 = true).
Proof.
  rewrite !canMake_submseteq. intros H. split.
  - rewrite <- length_list_ascii_of_string. by apply submseteq_length.
  - intros H12. by trans l1.
Qed.

Lemma canMake_length_and_monotone_witness :
  canMake "bad" ["a"; "b"; "d"]%char = true
  ∧ String.length "bad" ≤ 3
  ∧ canMake "bad" ["d"; "c"; "b"; "a"]%char = true.
Proof.
  assert (canMake "bad" ["a"; "b"; "d"]%char = true) as H by (vm_compute; reflexivity).
  destruct (canMake_length_and_monotone "bad" ["a"; "b"; "d"]%char
              ["d"; "c"; "b"; "a"]%char H) as [Hlen Hmono].
  split; [exact H|]. split; [exact Hlen|]. apply Hmono.
  apply (bool_decide_unpack _). vm_compute. exact I.
Defined.

Lemma count_loop_spec (letters : list ascii) (ws : list string) (count : nat) :
  count < 1000 →
  count_loop letters ws count = Nat.min 1000 (count + length (formable_words letters ws)).
Proof.
  revert count. unfold formable_words.
  induction ws as [|w ws IH]; intros count Hc; cbn [count_loop].
  - rewrite filter_nil. cbn [length]. lia.
  - rewrite filter_cons.
    destruct (Nat.ltb_spec (String.length w) 2) as [Hshort|Hlong].
    + rewrite decide_False by lia. by apply IH.
    + destruct (canMake w letters) eqn:Hcan.
      * rewrite decide_True by done. cbn [length].
        destruct (Nat.leb_spec 1000 (S count)) as [Hfull|Hroom]; [lia|].
        rewrite IH by lia. lia.
      * rewrite decide_False by (intros [_ ?]; done).
        destruct (Nat.leb_spec 1000 count); [lia|]. by apply IH.
Qed.

(** X4.  With a dictionary loaded, [countDictionaryMatches] is the number of
    dictionary words of at least two characters that the lower-cased letters
    can make, capped at one thousand. *)
Theorem countDictionaryMatches_is_capped_count (dict : list string) (lettersArr : list ascii) :
  dict ≠ [] →
  countDictionaryMatches dict lettersArr
  = Nat.min 1000 (length (formable_words (map toLowerCase_char lettersArr) dict)).
Proof.
  intros Hne. unfold countDictionaryMatches.
  destruct dict as [|d dict]; [done|]. cbn [length Nat.eqb].
  rewrite count_loop_spec by lia. reflexivity.
Qed.

Lemma countDictionaryMatches_witness :
  ["cab"; "a"; "bad"; "zoo"] ≠ []
  ∧ countDictionaryMatches ["cab"; "a"; "bad"; "zoo"] ["A"; "B"; "C"; "D"; "E"]%char = 2.
Proof.
  assert (["cab"; "a"; "bad"; "zoo"] ≠ []) as Hne by discriminate.
  split; [exact Hne|].
  rewrite (countDictionaryMatches_is_capped_count _ ["A"; "B"; "C"; "D"; "E"]%char Hne).
  vm_compute. reflexivity.
Defined.

(** ** [shuffleArray], [pickLettersWithAtLeastNWords], [initGameState] *)

Lemma unit_interval_high : unit_interval random_high.
Proof. intros k. split; vm_compute; [discriminate | reflexivity]. Qed.

Lemma insert_head_Permutation {A : Type} (l : list A) j x y :
  l !! j = Some y → y :: <[j := x]> l ≡ₚ x :: l.
Proof.
  revert l. induction j as [|j IH]; intros [|a l] Hj; try done; simpl in *.
  - injection Hj as ->. apply perm_swap.
  - rewrite (perm_swap a y), (IH l Hj). apply perm_swap.
Qed.

Lemma swap_lt_Permutation {A : Type} (l : list A) i j x y :
  i < j → l !! i = Some x → l !! j = Some y →
  <[j := x]> (<[i := y]> l) ≡ₚ l.
Proof.
  revert l j. induction i as [|i IH]; intros [|a l] [|j] Hlt Hi Hj; try done; try lia;
    simpl in *.
  - injection Hi as ->. by apply insert_head_Permutation.
  - f_equiv. apply IH; [lia | done | done].
Qed.

Lemma swap_Permutation {A : Type} (array : list A) i j :
  swap array i j ≡ₚ array.
Proof.
  unfold swap. destruct (array !! i) as [x|] eqn:Hi; [|done].
  destruct (array !! j) as [y|] eqn:Hj; [|done].
  destruct (Nat.lt_total i j) as [Hlt|[->|Hgt]].
  - by apply swap_lt_Permutation.
  - rewrite Hi in Hj. injection Hj as ->.
    by rewrite list_insert_insert_eq, list_insert_id.
  - rewrite list_insert_insert_ne by lia. by apply (swap_lt_Permutation array j i y x).
Qed.

Lemma shuffle_loop_spec {A : Type} rand i (array : list A) k :
  (shuffle_loop rand i array k).1 ≡ₚ array
  ∧ (shuffle_loop rand i array k).2 = (k + N.of_nat i)%N.
Proof.
  revert array k. induction i as [|i IH]; intros array k; cbn [shuffle_loop].
  - split; [done | cbn; lia].
  - destruct (IH (swap array (S i) (random_index rand k (S i + 1))) (k + 1)%N) as [Hp Hk].
    split; [by rewrite Hp, swap_Permutation | rewrite Hk; lia].
Qed.

(** X5.  For draws in the unit interval, [shuffleArray] returns a
    permutation of the array it is given, of the same length, and a call makes
    one draw for each cell but the first, whichever cells the draws select. *)
Theorem shuffleArray_permutes {A : Type} rand (array : list A) k :
  unit_interval rand →
  (shuffleArray rand array k).1 ≡ₚ array
  ∧ length (shuffleArray rand array k).1 = length array
  ∧ (shuffleArray rand array k).2 = (k + N.of_nat (length array - 1))%N.
Proof.
  intros _. destruct (shuffle_loop_spec rand (length array - 1) array k) as [Hp Hk].
  fold (shuffleArray rand array k) in Hp, Hk.
  split; [done|]. split; [by rewrite Hp | done].
Qed.

Lemma shuffleArray_permutes_witness :
  unit_interval random_high
  ∧ (shuffleArray random_high alphabet 0).1 ≡ₚ alphabet
  ∧ (shuffleArray random_high alphabet 0).2 = 25%N.
Proof.
  split; [exact unit_interval_high|].
  destruct (shuffleArray_permutes random_high alphabet 0%N unit_interval_high)
    as (Hp & _ & Hk).
  split; [exact Hp | exact Hk].
Defined.

Lemma pick_loop_spec dict rand attempts size n (alpha : list ascii) k :
  ∃ alpha' t,
    alpha' ≡ₚ alpha
    ∧ (pick_loop dict rand attempts size n alpha k).1 = take size alpha'
    ∧ t ≤ attempts ∧ (0 < attempts → 0 < t)
    ∧ (pick_loop dict rand attempts size n alpha k).2
      = (k + N.of_nat (length alpha - 1) * N.of_nat t)%N
    ∧ (n ≤ countDictionaryMatches dict (pick_loop dict rand attempts size n alpha k).1
       ∨ t = attempts).
Proof.
  revert alpha k. induction attempts as [|attempts IH]; intros alpha k; cbn [pick_loop].
  - exists alpha, 0. cbn [fst snd]. split_and!; try done; [lia | by right].
  - destruct (shuffle_loop_spec rand (length alpha - 1) alpha k) as [Hp Hk].
    fold (shuffleArray rand alpha k) in Hp, Hk.
    destruct (shuffleArray rand alpha k) as [alpha1 k1]. cbn [fst snd] in Hp, Hk.
    destruct (Nat.leb_spec n (countDictionaryMatches dict (take size alpha1))) as [Hok|Hlow].
    + exists alpha1, 1. cbn [fst snd]. split_and!; try done; [lia | lia | lia | by left].
    + destruct (IH alpha1 k1) as (alpha' & t & Hp' & Hres & Ht & _ & Hdraws & Hq).
      exists alpha', (S t). split_and!; [by rewrite Hp' | done | lia | lia | | ].
      * rewrite Hdraws, Hk, (Permutation_length Hp). lia.
      * destruct Hq as [Hq| ->]; [by left | by right].
Qed.

Lemma alphabet_NoDup : NoDup alphabet.
Proof. by_evaluation. Qed.

(** X6.  For draws in the unit interval, as [Math.random()] provides them,
    the letters returned by [pickLettersWithAtLeastNWords] are the first
    [size] cells of a permutation of the alphabet: distinct capital letters,
    [size] of them (at most 26).  The call makes 25 draws per attempt, for at
    least one and at most ten thousand attempts, and unless all ten thousand
    were used the letters returned reach the required count. *)
Theorem pickLetters_result dict rand size n k :
  unit_interval rand →
  let r := pickLettersWithAtLeastNWords dict rand size n k in
  r.1 ⊆+ alphabet
  ∧ NoDup r.1
  ∧ length r.1 = Nat.min size 26
  ∧ ∃ t, 0 < t ∧ t ≤ 10000
         ∧ r.2 = (k + 25 * N.of_nat t)%N
         ∧ (n ≤ countDictionaryMatches dict r.1 ∨ t = 10000).
Proof.
  intros _. cbv zeta. unfold pickLettersWithAtLeastNWords.
  destruct (pick_loop_spec dict rand 10000 size n alphabet k)
    as (alpha' & t & Hp & Hres & Ht & Hpos & Hdraws & Hq).
  assert (take size alpha' ⊆+ alphabet) as Hsub.
  { rewrite <- Hp. apply submseteq_take. }
  rewrite Hres in *. split_and!.
  - done.
  - apply (submseteq_Permutation) in Hsub as [rest Hrest].
    pose proof alphabet_NoDup as Hnd. rewrite Hrest in Hnd.
    by apply NoDup_app in Hnd as [? _].
  - rewrite length_take, (Permutation_length Hp). reflexivity.
  - exists t. split_and!; [|done|done|done].
    apply Hpos. apply Nat.ltb_lt. vm_compute. reflexivity.
Qed.

Lemma pickLetters_result_witness :
  unit_interval random_high
  ∧ length (pickLettersWithAtLeastNWords ["cab"] random_high 5 3 0).1 = 5
  ∧ NoDup (pickLettersWithAtLeastNWords ["cab"] random_high 5 3 0).1.
Proof.
  split; [exact unit_interval_high|].
  destruct (pickLetters_result ["cab"] random_high 5 3 0%N unit_interval_high)
    as (_ & Hnd & Hlen & _).
  split; [exact Hlen | exact Hnd].
Defined.

Lemma pool_size_cases m : pool_size m = 5 ∨ pool_size m = 10 ∨ pool_size m = 20.
Proof.
  unfold pool_size. destruct (String.eqb m "basic"); [by left|].
  destruct (String.eqb m "terrible"); [right; by left | right; by right].
Qed.

Lemma initGameState_letters dict rand m k :
  letters (initGameState dict rand m k).1 ⊆+ alphabet
  ∧ length (letters (initGameState dict rand m k).1) = pool_size m.
Proof.
  destruct (initGameState_fresh dict rand m k) as (_ & _ & _ & _ & _ & _ & Hl).
  cbv zeta in Hl. rewrite Hl. unfold pickLettersWithAtLeastNWords.
  destruct (pick_loop_spec dict rand 10000 (pool_size m) 3 alphabet k)
    as (alpha' & t & Hp & Hres & _).
  rewrite Hres. split.
  - rewrite <- Hp. apply submseteq_take.
  - rewrite length_take, (Permutation_length Hp).
    change (length alphabet) with 26. destruct (pool_size_cases m) as [->|[->| ->]]; lia.
Qed.

(** X7.  For draws in the unit interval, [initGameState] deals 5 letters in
    mode basic, 10 in mode terrible and 20 in every other mode, all distinct capital letters, and records the
    mode as it was given; the state starts with turn 1, both scores 0 and no
    found word. *)
Theorem initGameState_deals_pool_size_letters dict rand m k :
  unit_interval rand →
  let st := (initGameState dict rand m k).1 in
  length (letters st)
  = (if String.eqb m "basic" then 5 else if String.eqb m "terrible" then 10 else 20)
  ∧ letters st ⊆+ alphabet
  ∧ NoDup (letters st)
  ∧ mode st = m ∧ turn st = 1%Z ∧ p1Score st = 0 ∧ p2Score st = 0
  ∧ foundWords st = [] ∧ foundWordsSet st = ∅.
Proof.
  intros _. cbv zeta.
  destruct (initGameState_letters dict rand m k) as [Hsub Hlen].
  destruct (initGameState_fresh dict rand m k) as (Hm & Ht & Hp1 & Hp2 & Hfw & Hset & _).
  split_and!; try done.
  apply submseteq_Permutation in Hsub as [rest Hrest].
  pose proof alphabet_NoDup as Hnd. rewrite Hrest in Hnd.
  by apply NoDup_app in Hnd as [? _].
Qed.

Lemma initGameState_deals_witness :
  unit_interval random_high
  ∧ length (letters (initGameState ["cab"] random_high "terrible" 0).1) = 10
  ∧ length (letters (initGameState ["cab"] random_high "anything" 0).1) = 20.
Proof.
  split; [exact unit_interval_high|]. split.
  - exact (proj1 (initGameState_deals_pool_size_letters ["cab"] random_high "terrible" 0%N
                    unit_interval_high)).
  - exact (proj1 (initGameState_deals_pool_size_letters ["cab"] random_high "anything" 0%N
                    unit_interval_high)).
Defined.

Lemma pick_loop_first dict rand attempts size n (alpha : list ascii) k :
  0 < attempts →
  n ≤ countDictionaryMatches dict (take size (shuffleArray rand alpha k).1) →
  pick_loop dict rand attempts size n alpha k
  = (take size (shuffleArray rand alpha k).1, (shuffleArray rand alpha k).2).
Proof.
  intros Hpos Hok. destruct attempts as [|attempts]; [lia|]. cbn [pick_loop].
  destruct (shuffleArray rand alpha k) as [alpha1 k1]. cbn [fst snd] in *.
  by destruct (Nat.leb_spec n (countDictionaryMatches dict (take size alpha1))); [|lia].
Qed.

(** X8.  When no dictionary is loaded, [initGameState] keeps the first
    candidate: the letters are the first cells of the alphabet after one
    shuffle, and exactly 25 numbers are drawn. *)
Theorem initGameState_without_dictionary rand m k :
  initGameState [] rand m k
  = ({| mode := m;
        letters := take (pool_size m) (shuffleArray rand alphabet k).1;
        turn := 1; p1Score := 0; p2Score := 0;
        foundWords := []; foundWordsSet := ∅ |},
     (k + 25)%N).
Proof.
  unfold initGameState, pickLettersWithAtLeastNWords.
  rewrite pick_loop_first.
  - destruct (shuffle_loop_spec rand (length alphabet - 1) alphabet k) as [_ Hk].
    fold (shuffleArray rand alphabet k) in Hk. rewrite Hk. reflexivity.
  - apply Nat.ltb_lt. vm_compute. reflexivity.
  - change (countDictionaryMatches [] ?l) with 5. lia.
Qed.

(** ** The submit-word transition *)

Lemma submitWord_accepted_inv dict st w p st' :
  submitWord dict st w p = Accepted st' →
  w ≠ "" ∧ (w ∉ foundWordsSet st) ∧ isWordValid dict w (letters st) = true.
Proof.
  unfold submitWord. intros H.
  destruct (String.eqb_spec w ""); [discriminate|].
  destruct (bool_decide_reflect (w ∈ foundWordsSet st)); [discriminate|].
  destruct (isWordValid dict w (letters st)); [done | discriminate].
Qed.

Lemma state_ok_init dict rand m k : state_ok dict (initGameState dict rand m k).1.
Proof.
  destruct (initGameState_fresh dict rand m k) as (Hm & Ht & Hp1 & Hp2 & Hfw & Hset & _).
  destruct (initGameState_letters dict rand m k) as [Hsub Hlen].
  cbv zeta in *. unfold state_ok. rewrite Hfw, Hp1, Hp2, Hset, Ht, Hm.
  split_and!; try done; [by left | constructor].
Qed.

Lemma state_ok_submitWord dict st w p st' :
  state_ok dict st → submitWord dict st w p = Accepted st' → state_ok dict st'.
Proof.
  intros (Ht & Hp1 & Hp2 & Hset & Hnd & Hall & Hsub & Hlen) Hacc.
  destruct (submitWord_accepted_inv _ _ _ _ _ Hacc) as (Hne & Hnew & Hvalid).
  apply submitWord_accepted in Hacc. subst st'. unfold state_ok.
  cbn [turn p1Score p2Score foundWords foundWordsSet letters mode].
  rewrite !lengthsBy_app, !lengthsBy_cons, fmap_app. cbn [by_ word fmap list_fmap].
  split_and!; try done.
  - destruct (p =? 1)%Z; [by right | by left].
  - rewrite Hp1. change (lengthsBy _ []) with 0. destruct (p =? 1)%Z; lia.
  - rewrite Hp2. change (lengthsBy _ []) with 0. destruct (p =? 1)%Z; cbn [negb]; lia.
  - rewrite list_to_set_app_L, Hset. cbn. rewrite union_empty_r_L. apply (comm_L _).
  - apply NoDup_app. split; [done|]. split.
    + intros x Hx ->%list_elem_of_singleton. apply Hnew. rewrite Hset.
      by apply elem_of_list_to_set.
    + apply NoDup_singleton.
  - apply Forall_app. split; [done|]. by constructor.
Qed.

Lemma acceptedMoves_state_ok dict st moves st' :
  state_ok dict st → acceptedMoves dict st moves = Some st' → state_ok dict st'.
Proof.
  revert st. induction moves as [|[w p] moves IH]; intros st Hok H; simpl in H.
  - by injection H as <-.
  - destruct (submitWord dict st w p) as [| |st1] eqn:Hsub; try discriminate.
    eapply IH; [|done]. by eapply state_ok_submitWord.
Qed.

Lemma acceptedMoves_keeps dict st moves st' :
  acceptedMoves dict st moves = Some st' →
  foundWordsSet st ⊆ foundWordsSet st'
  ∧ letters st' = letters st ∧ mode st' = mode st.
Proof.
  revert st. induction moves as [|[w p] moves IH]; intros st H; simpl in H.
  - by injection H as <-.
  - destruct (submitWord dict st w p) as [| |st1] eqn:Hsub; try discriminate.
    apply submitWord_accepted in Hsub. destruct (IH _ H) as (Hs & Hl & Hm).
    subst st1. cbn in *. split_and!; [|done|done].
    intros x Hx. apply Hs, elem_of_union. by right.
Qed.

Lemma toLowerCase_char_idempotent c :
  toLowerCase_char (toLowerCase_char c) = toLowerCase_char c.
Proof. destruct c as [[] [] [] [] [] [] [] []]; vm_compute; reflexivity. Qed.

Lemma toLowerCase_fixed (w : string) :
  Forall (fun c => toLowerCase_char c = c) (list_ascii_of_string w) → toLowerCase w = w.
Proof.
  induction w as [|c w IH]; simpl; [done|].
  intros [Hc Hw]%Forall_cons. by rewrite Hc, IH.
Qed.

(** X10.  With a dictionary loaded, only words written in lower case are
    accepted, since their characters are drawn from the lower-cased letters;
    an accepted word is therefore an entry of the dictionary as submitted, it
    is not empty and it is never longer than the letter pool. *)
Theorem accepted_word_is_lower_case dict st w p st' :
  dict ≠ [] →
  submitWord dict st w p = Accepted st' →
  toLowerCase w = w
  ∧ w ∈ dict
  ∧ 0 < String.length w ≤ length (letters st).
Proof.
  intros Hdict Hacc.
  destruct (submitWord_accepted_inv _ _ _ _ _ Hacc) as (Hne & _ & Hvalid).
  apply isWordValid_true in Hvalid as [Hin Hsub].
  assert (toLowerCase w = w) as Hlow.
  { apply toLowerCase_fixed, Forall_forall. intros c Hc.
    assert (c ∈ map toLowerCase_char (letters st)) as Hl
      by (by eapply elem_of_submseteq).
    apply list_elem_of_fmap in Hl as (l & -> & _). apply toLowerCase_char_idempotent. }
  split; [done|]. split; [destruct Hin as [?|Hin]; [done | by rewrite Hlow in Hin]|].
  split.
  - destruct w; [done | simpl; lia].
  - apply submseteq_length in Hsub.
    by rewrite length_list_ascii_of_string, length_map in Hsub.
Qed.

Lemma accepted_word_is_lower_case_witness :
  let st := (initGameState dictionary_abcde random_high "basic" 0).1 in
  dictionary_abcde ≠ []
  ∧ ∃ st', submitWord dictionary_abcde st "cab" 2 = Accepted st'
           ∧ toLowerCase "cab" = "cab" ∧ "cab" ∈ dictionary_abcde.
Proof.
  cbv zeta. assert (dictionary_abcde ≠ []) as Hne by discriminate.
  split; [exact Hne|].
  destruct (submitWord dictionary_abcde
              (initGameState dictionary_abcde random_high "basic" 0).1 "cab" 2)
    as [| |st'] eqn:Hacc; [vm_compute in Hacc; discriminate ..|].
  exists st'. split; [reflexivity|].
  destruct (accepted_word_is_lower_case dictionary_abcde _ "cab" 2 st' Hne Hacc)
    as (Hlow & Hd & _).
  split; [exact Hlow | exact Hd].
Defined.

(** ** The registry over all events *)

Section Rooms.
Variable dict : list string.
Variable rand : N -> Q.
Variable crypto : N -> N.

(** How one event changes the rooms of the registry: a room of the new state
    was there unchanged, or had its game state replaced by a new one or by the
    result of an accepted move, or was written by create-room, by a join that
    succeeded, or by a pairing of quick-match. *)
Lemma handle_room (S : Server) ev rid room' :
  rooms (handle dict rand crypto S ev).1 !! rid = Some room' →
  rooms S !! rid = Some room'
  ∨ (∃ room st',
       rooms S !! rid = Some room
       ∧ room' = {| room_id := room_id room; players := players room; state := Some st' |}
       ∧ ((state room = None ∧ ∃ m k, st' = (initGameState dict rand m k).1)
          ∨ (∃ st w p, state room = Some st ∧ submitWord dict st w p = Accepted st')))
  ∨ (∃ ws, ev = Message ws CreateRoom
       ∧ room' = {| room_id := rid; players := [ws]; state := None |})
  ∨ (∃ ws m room k, ev = Message ws (JoinRoom rid m) ∧ rooms S !! rid = Some room
       ∧ length (players room) < 2
       ∧ room' = {| room_id := room_id room; players := players room ++ [ws];
                    state := Some (initGameState dict rand (mode_or_default m) k).1 |})
  ∨ (∃ ws m peer rest k, ev = Message ws (QuickMatch m) ∧ waiting S = peer :: rest
       ∧ room' = {| room_id := rid; players := [peer; ws];
                    state := Some (initGameState dict rand (mode_or_default m) k).1 |}).
Proof.
  destruct ev as [|ws|ws [|r m|m|m|w p| |]]; cbn [handle onMessage].
  - unfold onConnection. destruct (makeId crypto 4 (cryptoDraws S)). cbn. eauto.
  - unfold onClose. destruct (roomOf ws S) as [[r room]|]; cbn; [|by eauto].
    intros [_ H]%lookup_delete_Some. eauto.
  - unfold createRoom. destruct (makeId crypto 3 (cryptoDraws S)) as [r c']. cbn.
    intros [[<- <-]|[_ H]]%lookup_insert_Some; [|by eauto].
    right; right; left. by exists ws.
  - unfold joinRoom. destruct (rooms S !! r) as [room|] eqn:Hr; [|by eauto].
    destruct (Nat.leb_spec 2 (length (players room))); [by eauto|].
    destruct (initGameState dict rand (mode_or_default m) (randomDraws S))
      as [st k'] eqn:Hinit. cbn.
    intros [[<- <-]|[_ H']]%lookup_insert_Some; [|by eauto].
    right; right; right; left. exists ws, m, room, (randomDraws S). by rewrite Hinit.
  - unfold quickMatch. destruct (waiting S) as [|peer rest] eqn:Hw; [cbn; by eauto|].
    destruct (makeId crypto 3 (cryptoDraws S)) as [r c'].
    destruct (initGameState dict rand (mode_or_default m) (randomDraws S))
      as [st k'] eqn:Hinit. cbn.
    intros [[<- <-]|[_ H']]%lookup_insert_Some; [|by eauto].
    right; right; right; right. exists ws, m, peer, rest, (randomDraws S).
    by rewrite Hinit.
  - unfold startGame. destruct (roomOf ws S) as [[r room]|] eqn:Hr; [|by eauto].
    apply roomOf_Some in Hr. destruct (state room) eqn:Hst; [by eauto|].
    destruct (initGameState dict rand (mode_or_default m) (randomDraws S))
      as [st k'] eqn:Hinit. cbn.
    intros [[<- <-]|[_ H']]%lookup_insert_Some; [|by eauto].
    right; left. exists room, st. split_and!; [done|done|]. left. split; [done|].
    exists (mode_or_default m), (randomDraws S). by rewrite Hinit.
  - unfold onSubmitWord. destruct (roomOf ws S) as [[r room]|] eqn:Hr; [|by eauto].
    apply roomOf_Some in Hr. destruct (state room) as [st|] eqn:Hst; [|by eauto].
    destruct (submitWord dict st w p) as [| |st'] eqn:Hsub; [by eauto|by eauto|]. cbn.
    intros [[<- <-]|[_ H']]%lookup_insert_Some; [|by eauto].
    right; left. exists room, st'. split_and!; [done|done|]. right. by exists st, w, p.
  - unfold getState. destruct (roomOf ws S) as [[r room]|]; eauto.
  - eauto.
Qed.

Lemma handle_room_ok (S : Server) ev :
  map_Forall (room_ok dict) (rooms S) →
  map_Forall (room_ok dict) (rooms (handle dict rand crypto S ev).1).
Proof.
  intros IH rid room' Hroom'.
  destruct (handle_room _ _ _ _ Hroom')
    as [Hsame|[(room & st' & Hr & -> & Hst)|[(ws & _ & ->)
       |[(ws & m & room & k & _ & Hr & Hlt & ->)|(ws & m & peer & rest & k & _ & _ & ->)]]]].
  - by apply IH.
  - destruct (IH rid room Hr) as (Hid & Hsize & _ & Hok).
    split; [done|]. split; [done|]. split; [intros _; by eexists|].
    intros st [= <-].
    destruct Hst as [[_ (m & k & ->)]|(st & w & p & Hs & Hacc)].
    + apply state_ok_init.
    + eapply state_ok_submitWord; [|done]. by apply Hok.
  - split; [done|]. split; [cbn; lia|]. split; [cbn; lia | done].
  - destruct (IH rid room Hr) as (Hid & Hsize & _ & _).
    split; [done|]. cbn [players state]. split; [rewrite length_app; cbn; lia|].
    split; [intros _; by eexists|]. intros st [= <-]. apply state_ok_init.
  - split; [done|]. cbn [players state]. split; [cbn; lia|].
    split; [intros _; by eexists|]. intros st [= <-]. apply state_ok_init.
Qed.

Lemma remove_first_length ws (queue : list conn) :
  length (remove_first ws queue) ≤ length queue.
Proof.
  induction queue as [|p rest IH]; simpl; [done|].
  destruct (decide (p = ws)); simpl; lia.
Qed.

Lemma reachable_rooms_ok (S : Server) :
  reachable dict rand crypto S → map_Forall (room_ok dict) (rooms S).
Proof.
  induction 1 as [|S ev _ IH _]; [apply map_Forall_empty|].
  by apply handle_room_ok.
Qed.

(** X11.  In every reachable state each room of the registry is filed under
    its own id and holds one or two players, and a room of two players has a
    game state.  With a dictionary loaded, every game state has turn 1 or 2,
    scores equal to the sums of the lengths of the words found (for index 1,
    and for every other index), a set of found words equal to that of the
    list, no word listed twice, only non-empty words that pass [isWordValid]
    on its letters, and as many distinct capital letters as its mode asks
    for. *)
Theorem reachable_rooms_are_well_formed (S : Server) rid room :
  reachable dict rand crypto S →
  rooms S !! rid = Some room →
  room_id room = rid
  ∧ 1 ≤ length (players room) ≤ 2
  ∧ (length (players room) = 2 → is_Some (state room))
  ∧ (dict ≠ [] → ∀ st, state room = Some st → state_ok dict st).
Proof.
  intros Hreach Hroom.
  destruct (reachable_rooms_ok S Hreach rid room Hroom) as (Hid & Hsize & Hst & Hok).
  split; [done|]. split; [done|]. split; [done|]. intros _. exact Hok.
Qed.

Lemma reachable_waiting_cases (S : Server) :
  reachable dict rand crypto S → waiting S = [] ∨ ∃ c, waiting S = [c].
Proof.
  induction 1 as [|S ev _ IH _]; [by left|].
  destruct (handle_waiting dict rand crypto S ev)
    as [->|[(ws & _ & ->)|[(ws & m & _ & _ & ->)|(ws & m & peer & _ & Hq)]]].
  - done.
  - destruct IH as [->|[c ->]]; [by left|]. simpl.
    destruct (decide (c = ws)); [by left | right; by exists c].
  - right. by exists ws.
  - destruct IH as [IH|[c IH]]; rewrite Hq in IH; [done|].
    injection IH as _ ->. by left.
Qed.

(** X12.  The waiting queue never holds more than one connection: quick-match
    enqueues only when the queue is empty and pairs otherwise. *)
Theorem reachable_queue_holds_at_most_one (S : Server) :
  reachable dict rand crypto S → length (waiting S) ≤ 1.
Proof.
  induction 1 as [|S ev _ IH _]; [simpl; lia|].
  destruct (handle_waiting dict rand crypto S ev)
    as [->|[(ws & _ & ->)|[(ws & m & _ & _ & ->)|(ws & m & peer & _ & Hq)]]].
  - done.
  - pose proof (remove_first_length ws (waiting S)). lia.
  - simpl. lia.
  - rewrite Hq in IH. simpl in IH. lia.
Qed.
End Rooms.

Lemma reachable_rooms_witness :
  let S := (run dictionary_abcde random_high crypto_count initial trace_host_plays).1 in
  reachable dictionary_abcde random_high crypto_count S
  ∧ ∃ room st, rooms S !! "b3b" = Some room
               ∧ players room = [0] ∧ state room = Some st ∧ p1Score st = 3
               ∧ room_id room = "b3b" ∧ state_ok dictionary_abcde st.
Proof.
  cbv zeta.
  assert (reachable dictionary_abcde random_high crypto_count
            (run dictionary_abcde random_high crypto_count initial trace_host_plays).1)
    as Hreach by (apply reachable_run; [constructor | by_evaluation]).
  split; [exact Hreach|].
  destruct (rooms (run dictionary_abcde random_high crypto_count initial
                     trace_host_plays).1 !! "b3b") as [room|] eqn:Hroom;
    [|vm_compute in Hroom; discriminate].
  destruct (state room) as [st|] eqn:Hst;
    [|vm_compute in Hroom; injection Hroom as <-; vm_compute in Hst; discriminate].
  exists room, st. split; [reflexivity|].
  destruct (reachable_rooms_are_well_formed dictionary_abcde random_high crypto_count
              _ "b3b" room Hreach Hroom) as (Hid & _ & _ & Hok).
  split; [vm_compute in Hroom; by injection Hroom as <-|]. split; [done|].
  split; [vm_compute in Hroom; injection Hroom as <-; vm_compute in Hst;
          by injection Hst as <-|].
  split; [exact Hid|]. apply Hok; [discriminate | exact Hst].
Defined.

Lemma reachable_queue_witness :
  let S := (run [] random_high crypto_count initial trace_waiter).1 in
  reachable [] random_high crypto_count S ∧ length (waiting S) ≤ 1.
Proof.
  cbv zeta.
  assert (reachable [] random_high crypto_count
            (run [] random_high crypto_count initial trace_waiter).1) as Hreach
    by (apply reachable_run; [constructor | by_evaluation]).
  split; [exact Hreach|].
  exact (reachable_queue_holds_at_most_one [] random_high crypto_count _ Hreach).
Defined.

(** ** Single events *)

Section Events.
Variable dict : list string.
Variable rand : N -> Q.
Variable crypto : N -> N.

Lemma roomOf_inv ws (S : Server) rid room :
  roomOf ws S = Some (rid, room) ↔ roomId S !! ws = Some rid ∧ rooms S !! rid = Some room.
Proof.
  unfold roomOf. split.
  - destruct (roomId S !! ws) as [r|]; [|done]. simpl.
    destruct (rooms S !! r) eqn:Hr; [|done]. simpl. by intros [= <- <-].
  - intros [-> Hr]. simpl. by rewrite Hr.
Qed.

Lemma roomOf_None ws (S : Server) :
  roomOf ws S = None ↔ ∀ rid, roomId S !! ws = Some rid → rooms S !! rid = None.
Proof.
  unfold roomOf. split.
  - intros H rid Hrid. rewrite Hrid in H. simpl in H.
    by destruct (rooms S !! rid).
  - intros H. destruct (roomId S !! ws) as [r|]; [|done]. simpl.
    by rewrite (H r eq_refl).
Qed.

(** X13.  The messages start-game, submit-word and get-state, and those the
    server does not handle, never touch the waiting queue, the room of any
    socket, the player list of any room or the rooms other than the sender's;
    when the sender has no room in the registry they change nothing and send
    nothing. *)
Theorem game_messages_keep_the_registry (S : Server) ws msg :
  game_message msg →
  let after := handle dict rand crypto S (Message ws msg) in
  waiting after.1 = waiting S
  ∧ roomId after.1 = roomId S
  ∧ connections after.1 = connections S
  ∧ closed after.1 = closed S
  ∧ (∀ rid, players <$> rooms after.1 !! rid = players <$> rooms S !! rid)
  ∧ (∀ rid, roomId S !! ws ≠ Some rid → rooms after.1 !! rid = rooms S !! rid)
  ∧ (roomOf ws S = None → after = (S, [])).
Proof.
  intros Hmsg. cbv zeta. cbn [handle]. destruct msg as [|r m|m|m|w p| |]; try done;
    cbn [onMessage].
  - unfold startGame. destruct (roomOf ws S) as [[r room]|] eqn:Hr; [|done].
    apply roomOf_inv in Hr as [Hid Hr]. destruct (state room); [done|].
    destruct (initGameState dict rand (mode_or_default m) (randomDraws S)) as [st k'].
    cbn. split_and!; try done.
    + intros rid. destruct (decide (r = rid)) as [<-|Hne].
      * by rewrite lookup_insert_eq, Hr.
      * by rewrite lookup_insert_ne.
    + intros rid Hne. rewrite lookup_insert_ne; [done|]. by intros <-.
  - unfold onSubmitWord. destruct (roomOf ws S) as [[r room]|] eqn:Hr; [|done].
    apply roomOf_inv in Hr as [Hid Hr]. destruct (state room) as [st|]; [|done].
    destruct (submitWord dict st w p) as [| |st']; [done|done|].
    cbn. split_and!; try done.
    + intros rid. destruct (decide (r = rid)) as [<-|Hne].
      * by rewrite lookup_insert_eq, Hr.
      * by rewrite lookup_insert_ne.
    + intros rid Hne. rewrite lookup_insert_ne; [done|]. by intros <-.
  - unfold getState. by destruct (roomOf ws S) as [[r room]|].
Qed.

Lemma joinRoom_not_found (S : Server) ws rid m :
  rooms S !! rid = None →
  handle dict rand crypto S (Message ws (JoinRoom rid m))
  = (S, [(ws, ErrorMsg "Room not found")]).
Proof. intros Hnone. cbn [handle onMessage]. unfold joinRoom. by rewrite Hnone. Qed.

(** Game messages file no room under an id that has none. *)
Lemma game_events_keep_missing (S : Server) evs rid :
  Forall game_event evs →
  rooms S !! rid = None →
  rooms (run dict rand crypto S evs).1 !! rid = None.
Proof.
  intros Hevs. revert S. induction Hevs as [|ev evs Hev _ IH]; intros S Hnone; [done|].
  rewrite run_cons. apply IH. destruct ev as [|c|c msg]; try done. cbn [handle].
  destruct msg as [|r m|m|m|w p| |]; try done; cbn [onMessage].
  - unfold startGame. destruct (roomOf c S) as [[r room]|] eqn:Hr; [|done].
    apply roomOf_inv in Hr as [_ Hr]. destruct (state room); [done|].
    destruct (initGameState dict rand (mode_or_default m) (randomDraws S)) as [st k'].
    cbn [fst set_state rooms]. rewrite lookup_insert_ne; [done | congruence].
  - unfold onSubmitWord. destruct (roomOf c S) as [[r room]|] eqn:Hr; [|done].
    apply roomOf_inv in Hr as [_ Hr]. destruct (state room) as [st|]; [|done].
    destruct (submitWord dict st w p); [done|done|].
    cbn [fst set_state rooms]. rewrite lookup_insert_ne; [done | congruence].
  - unfold getState. by destruct (roomOf c S) as [[r room]|].
Qed.

(** X15.  What an accepted submit-word stores is what get-state returns: the
    new state is sent to every player of the room, in order, and a get-state
    that follows is answered, to the requester alone, with that same state. *)
Theorem accepted_state_is_stored_and_broadcast (S : Server) ws rid room st w p st' :
  roomOf ws S = Some (rid, room) →
  state room = Some st →
  submitWord dict st w p = Accepted st' →
  let after := handle dict rand crypto S (Message ws (SubmitWord w p)) in
  after.2 = map (fun q => (q, StateUpdate (Some st'))) (players room)
  ∧ (state <$> rooms after.1 !! rid) = Some (Some st')
  ∧ handle dict rand crypto after.1 (Message ws GetState)
    = (after.1, [(ws, StateUpdate (Some st'))]).
Proof.
  intros Hr Hst Hacc. cbv zeta. cbn [handle onMessage].
  unfold onSubmitWord. rewrite Hr, Hst, Hacc. cbn [fst snd].
  apply roomOf_inv in Hr as [Hid Hr].
  split; [done|]. split.
  - unfold set_state. cbn [rooms]. by rewrite lookup_insert_eq.
  - unfold getState.
    rewrite (proj2 (roomOf_inv ws (set_state rid room st' (randomDraws S) S) rid
                      {| room_id := room_id room; players := players room;
                         state := Some st' |})); [done|].
    unfold set_state. cbn [roomId rooms]. by rewrite lookup_insert_eq.
Qed.

(** X16.  Start-game is idempotent: sent a second time by the same socket,
    with whatever mode, it changes nothing and sends the same messages as the
    first time. *)
Theorem start_game_twice (S : Server) ws m m' :
  let first := handle dict rand crypto S (Message ws (StartGame m)) in
  handle dict rand crypto first.1 (Message ws (StartGame m')) = (first.1, first.2).
Proof.
  cbv zeta. cbn [handle onMessage]. unfold startGame at 2 3 4.
  destruct (roomOf ws S) as [[rid room]|] eqn:Hr.
  - destruct (state room) as [st|] eqn:Hst.
    + cbn [fst snd]. unfold startGame. by rewrite Hr, Hst.
    + destruct (initGameState dict rand (mode_or_default m) (randomDraws S)) as [st k'].
      cbn [fst snd]. apply roomOf_inv in Hr as [Hid Hr]. unfold startGame.
      rewrite (proj2 (roomOf_inv ws (set_state rid room st k' S) rid
                        {| room_id := room_id room; players := players room;
                           state := Some st |})); [done|].
      unfold set_state. cbn [roomId rooms]. by rewrite lookup_insert_eq.
  - cbn [fst snd]. unfold startGame. by rewrite Hr.
Qed.

(** A game message, from whatever socket, leaves a word in the set of found
    words of the room it was found in. *)
Lemma game_event_keeps_found (S : Server) ev rid w :
  game_event ev →
  (∃ room st, rooms S !! rid = Some room ∧ state room = Some st ∧ w ∈ foundWordsSet st) →
  roomId (handle dict rand crypto S ev).1 = roomId S
  ∧ ∃ room st, rooms (handle dict rand crypto S ev).1 !! rid = Some room
               ∧ state room = Some st ∧ w ∈ foundWordsSet st.
Proof.
  intros Hev (room & st & Hroom & Hst & Hw).
  assert (∀ out : Outbox,
            roomId (S, out).1 = roomId S
            ∧ ∃ room st, rooms (S, out).1 !! rid = Some room
                         ∧ state room = Some st ∧ w ∈ foundWordsSet st) as Hsame
    by (intros out; split; [done | by exists room, st]).
  destruct ev as [|c|c msg]; try done. cbn [handle].
  destruct msg as [|r m|m|m|w2 p2| |]; try done; cbn [onMessage].
  - unfold startGame. destruct (roomOf c S) as [[r room2]|] eqn:Hr; [|apply Hsame].
    apply roomOf_inv in Hr as [_ Hr]. destruct (state room2) as [st2|] eqn:Hst2; [apply Hsame|].
    destruct (initGameState dict rand (mode_or_default m) (randomDraws S)) as [st0 k'].
    cbn [fst set_state roomId rooms]. split; [done|].
    destruct (decide (r = rid)) as [->|Hne]; [congruence|].
    rewrite lookup_insert_ne; [|done]. by exists room, st.
  - unfold onSubmitWord. destruct (roomOf c S) as [[r room2]|] eqn:Hr; [|apply Hsame].
    apply roomOf_inv in Hr as [_ Hr]. destruct (state room2) as [st2|] eqn:Hst2; [|apply Hsame].
    destruct (submitWord dict st2 w2 p2) as [| |st3] eqn:Hsub; [apply Hsame|apply Hsame|].
    cbn [fst set_state roomId rooms]. split; [done|].
    destruct (decide (r = rid)) as [->|Hne].
    + rewrite lookup_insert_eq. eexists _, st3. split; [done|]. split; [done|].
      apply submitWord_accepted in Hsub. subst st3. cbn [foundWordsSet].
      apply elem_of_union. right. congruence.
    + rewrite lookup_insert_ne; [|done]. by exists room, st.
  - unfold getState. destruct (roomOf c S) as [[r room2]|]; apply Hsame.
  - apply Hsame.
Qed.

Lemma game_events_keep_found (S : Server) evs rid w :
  Forall game_event evs →
  (∃ room st, rooms S !! rid = Some room ∧ state room = Some st ∧ w ∈ foundWordsSet st) →
  roomId (run dict rand crypto S evs).1 = roomId S
  ∧ ∃ room st, rooms (run dict rand crypto S evs).1 !! rid = Some room
               ∧ state room = Some st ∧ w ∈ foundWordsSet st.
Proof.
  intros Hevs. revert S. induction Hevs as [|ev evs Hev _ IH]; intros S Hfound; [done|].
  destruct (game_event_keeps_found S ev rid w Hev Hfound) as [Hid Hfound'].
  rewrite run_cons.
  destruct (IH _ Hfound') as [Hid' Hfound'']. split; [congruence | done].
Qed.

(** X9.  With a dictionary loaded, a word that was accepted in a room is
    refused as "already-found", and changes nothing, when any socket of that
    room submits it again, by whichever player index, after any number of
    start-game, submit-word and get-state messages from any sockets: the room
    keeps its state object as long as no join-room replaces it and no close
    or id collision removes the room. *)
Theorem accepted_word_is_refused_afterwards
  (S : Server) ws ws' rid room st w p q st' evs :
  dict ≠ [] →
  roomOf ws S = Some (rid, room) →
  state room = Some st →
  submitWord dict st w p = Accepted st' →
  Forall game_event evs →
  roomId S !! ws' = Some rid →
  let accepted := (handle dict rand crypto S (Message ws (SubmitWord w p))).1 in
  let later := (run dict rand crypto accepted evs).1 in
  handle dict rand crypto later (Message ws' (SubmitWord w q))
  = (later, [(ws', MoveRejected "already-found")]).
Proof.
  intros _ Hr Hst Hacc Hevs Hid. cbv zeta.
  destruct (submitWord_accepted_inv _ _ _ _ _ Hacc) as (Hne & _ & _).
  assert (handle dict rand crypto S (Message ws (SubmitWord w p))
          = (set_state rid room st' (randomDraws S) S,
             map (fun c => (c, StateUpdate (Some st'))) (players room))) as ->.
  { cbn [handle onMessage]. unfold onSubmitWord. by rewrite Hr, Hst, Hacc. }
  cbn [fst].
  destruct (game_events_keep_found (set_state rid room st' (randomDraws S) S) evs rid w Hevs)
    as (Hid' & room2 & st2 & Hroom2 & Hst2 & Hw).
  { eexists _, st'. unfold set_state. cbn [rooms]. rewrite lookup_insert_eq.
    split; [done|]. split; [done|].
    apply submitWord_accepted in Hacc. subst st'. cbn [foundWordsSet].
    apply elem_of_union. left. by apply elem_of_singleton. }
  cbn [handle onMessage]. unfold onSubmitWord.
  rewrite (proj2 (roomOf_inv ws' _ rid room2)).
  - rewrite Hst2. unfold submitWord.
    destruct (String.eqb_spec w ""); [done|]. by rewrite bool_decide_eq_true_2.
  - split; [|done]. rewrite Hid'. by unfold set_state.
Qed.

(** X14.  A room does not outlive the departure of either of its players:
    once a socket of the room has closed, whatever start-game, submit-word
    and get-state messages follow, a join-room that names the id of the room
    is answered with the error "Room not found", to the sender alone, and
    changes nothing, also while the other player is still connected. *)
Theorem join_after_teardown_is_refused (S : Server) ws ws' rid room m evs :
  roomOf ws S = Some (rid, room) →
  Forall game_event evs →
  let torn := (handle dict rand crypto S (Close ws)).1 in
  let later := (run dict rand crypto torn evs).1 in
  handle dict rand crypto later (Message ws' (JoinRoom rid m))
  = (later, [(ws', ErrorMsg "Room not found")]).
Proof.
  intros Hr Hevs. cbv zeta. apply joinRoom_not_found, game_events_keep_missing; [done|].
  cbn [handle]. unfold onClose. rewrite Hr. cbn [fst rooms]. apply lookup_delete_eq.
Qed.
End Events.

Lemma accepted_word_is_refused_witness :
  let S := (run dictionary_abcde random_high crypto_count initial trace_paired).1 in
  let accepted :=
    (handle dictionary_abcde random_high crypto_count S (Message 0 (SubmitWord "cab" 1))).1 in
  let later := (run dictionary_abcde random_high crypto_count accepted trace_game_goes_on).1 in
  dictionary_abcde ≠ []
  ∧ is_Some (roomOf 0 S)
  ∧ Forall game_event trace_game_goes_on
  ∧ (p2Score <$> (rooms later !! "b7b" ≫= state)) = Some 3
  ∧ handle dictionary_abcde random_high crypto_count later (Message 1 (SubmitWord "cab" 2))
    = (later, [(1, MoveRejected "already-found")]).
Proof.
  cbv zeta.
  assert (dictionary_abcde ≠ []) as Hne by discriminate.
  assert (Forall game_event trace_game_goes_on) as Hevs by (repeat constructor).
  split; [exact Hne|]. split; [by_evaluation|]. split; [exact Hevs|].
  split; [vm_compute; reflexivity|].
  destruct (roomOf 0 (run dictionary_abcde random_high crypto_count initial trace_paired).1)
    as [[rid room]|] eqn:Hr; [|vm_compute in Hr; discriminate].
  destruct (state room) as [st|] eqn:Hst;
    [|vm_compute in Hr; injection Hr as <- <-; vm_compute in Hst; discriminate].
  destruct (submitWord dictionary_abcde st "cab" 1) as [| |st'] eqn:Hacc.
  1,2: vm_compute in Hr; injection Hr as <- <-; vm_compute in Hst; injection Hst as <-;
       vm_compute in Hacc; discriminate.
  assert (roomId (run dictionary_abcde random_high crypto_count initial trace_paired).1
            !! 1 = Some rid) as Hid.
  { vm_compute in Hr. injection Hr as <- _. vm_compute. reflexivity. }
  exact (accepted_word_is_refused_afterwards dictionary_abcde random_high crypto_count
           _ 0 1 rid room st "cab" 1 2 st' trace_game_goes_on Hne Hr Hst Hacc Hevs Hid).
Defined.

Lemma join_after_teardown_witness :
  let S := (run [] random_high crypto_count initial trace_paired).1 in
  let torn := (handle [] random_high crypto_count S (Close 1)).1 in
  let later := (run [] random_high crypto_count torn trace_host_goes_on).1 in
  roomOf 1 S = roomOf 0 S
  ∧ players <$> rooms S !! "b7b" = Some [0; 1]
  ∧ Forall game_event trace_host_goes_on
  ∧ (2 < connections later ∧ (0 ∉ closed later) ∧ (2 ∉ closed later))
  ∧ handle [] random_high crypto_count later (Message 2 (JoinRoom "b7b" None))
    = (later, [(2, ErrorMsg "Room not found")]).
Proof.
  cbv zeta.
  assert (Forall game_event trace_host_goes_on) as Hevs by (repeat constructor).
  split; [vm_compute; reflexivity|]. split; [vm_compute; reflexivity|].
  split; [exact Hevs|]. split; [by_evaluation|].
  destruct (roomOf 1 (run [] random_high crypto_count initial trace_paired).1)
    as [[rid room]|] eqn:Hr; [|vm_compute in Hr; discriminate].
  assert (rid = "b7b") as Hrid by (vm_compute in Hr; by injection Hr as <- _).
  rewrite <- Hrid.
  exact (join_after_teardown_is_refused [] random_high crypto_count
           _ 1 2 rid room None trace_host_goes_on Hr Hevs).
Defined.

Lemma game_messages_witness :
  let S := (run [] random_high crypto_count initial trace_paired).1 in
  let after := handle [] random_high crypto_count S (Message 1 (SubmitWord "bad" 1)) in
  game_message (SubmitWord "bad" 1)
  ∧ waiting after.1 = waiting S ∧ roomId after.1 = roomId S.
Proof.
  cbv zeta.
  destruct (game_messages_keep_the_registry [] random_high crypto_count
              (run [] random_high crypto_count initial trace_paired).1 1
              (SubmitWord "bad" 1) I) as (Hw & Hid & _).
  split; [exact I|]. split; [exact Hw | exact Hid].
Defined.

Lemma accepted_state_witness :
  let S := (run [] random_high crypto_count initial trace_paired).1 in
  let after := handle [] random_high crypto_count S (Message 1 (SubmitWord "bad" 2)) in
  is_Some (roomOf 1 S)
  ∧ ∃ st', handle [] random_high crypto_count after.1 (Message 1 GetState)
           = (after.1, [(1, StateUpdate (Some st'))]).
Proof.
  cbv zeta. split; [by_evaluation|].
  destruct (roomOf 1 (run [] random_high crypto_count initial trace_paired).1)
    as [[rid room]|] eqn:Hr; [|vm_compute in Hr; discriminate].
  destruct (state room) as [st|] eqn:Hst;
    [|vm_compute in Hr; injection Hr as <- <-; vm_compute in Hst; discriminate].
  destruct (submitWord [] st "bad" 2) as [| |st'] eqn:Hacc.
  1,2: vm_compute in Hr; injection Hr as <- <-; vm_compute in Hst; injection Hst as <-;
       vm_compute in Hacc; discriminate.
  exists st'.
  exact (proj2 (proj2 (accepted_state_is_stored_and_broadcast [] random_high crypto_count
                         _ 1 rid room st "bad" 2 st' Hr Hst Hacc))).
Defined.

(** ** [makeId] *)

Lemma substring_take n (s : string) :
  list_ascii_of_string (substring 0 n s) = take n (list_ascii_of_string s).
Proof.
  revert n. induction s as [|c s IH]; intros [|n]; simpl; try done. by rewrite IH.
Qed.

Lemma hex_digit_elem n :
  (n < 16)%N → hex_digit n ∈ list_ascii_of_string "0123456789abcdef".
Proof.
  intros Hn. unfold hex_digit. apply list_elem_of_In, nth_In. simpl. lia.
Qed.

Lemma hex_of_bytes_spec (bytes : list N) :
  Forall (fun b => (b < 256)%N) bytes →
  length (concat (map hex_of_byte bytes)) = 2 * length bytes
  ∧ Forall (fun c => c ∈ list_ascii_of_string "0123456789abcdef")
           (concat (map hex_of_byte bytes)).
Proof.
  induction 1 as [|b bytes Hb _ [IHlen IHall]]; [by split|]. simpl. split; [lia|].
  constructor; [|constructor; [|done]]; apply hex_digit_elem.
  - apply N.Div0.div_lt_upper_bound. lia.
  - apply N.mod_lt. lia.
Qed.

(** X17.  [makeId(len)] returns exactly [len] characters, each of them a
    digit or a letter from a to f, and uses up [len] random bytes. *)
Theorem makeId_format crypto len k :
  String.length (makeId crypto len k).1 = len
  ∧ Forall (fun c => c ∈ list_ascii_of_string "0123456789abcdef")
           (list_ascii_of_string (makeId crypto len k).1)
  ∧ (makeId crypto len k).2 = (k + N.of_nat len)%N.
Proof.
  unfold makeId. cbn [fst snd].
  set (bytes := map (fun i => (crypto (k + N.of_nat i) mod 256)%N) (seq 0 len)).
  assert (Forall (fun b => (b < 256)%N) bytes) as Hbytes.
  { apply Forall_forall. intros b (i & -> & _)%list_elem_of_fmap. apply N.mod_lt. lia. }
  destruct (hex_of_bytes_spec bytes Hbytes) as [Hlen Hall].
  rewrite <- length_list_ascii_of_string, substring_take,
    list_ascii_of_string_of_list_ascii.
  split; [|split; [by apply Forall_take | done]].
  rewrite length_take, Hlen. unfold bytes. rewrite length_map, length_seq. lia.
Qed.

Lemma makeId_3 crypto k :
  (makeId crypto 3 k).1
  = String (hex_digit ((crypto (k + 0) mod 256) / 16)%N)
      (String (hex_digit ((crypto (k + 0) mod 256) mod 16)%N)
         (String (hex_digit ((crypto (k + 1) mod 256) / 16)%N) "")).
Proof. reflexivity. Qed.

(** X18.  A room id is made of the first random byte and of the upper half
    of the second: two sources of bytes that agree on these twelve bits give
    the same room id, whatever the bytes that follow. *)
Theorem room_id_uses_twelve_bits crypto crypto' k k' :
  (crypto k mod 256 = crypto' k' mod 256)%N →
  ((crypto (k + 1) mod 256) / 16 = (crypto' (k' + 1) mod 256) / 16)%N →
  (makeId crypto 3 k).1 = (makeId crypto' 3 k').1.
Proof.
  intros H0 H1. rewrite !makeId_3, !N.add_0_r, H0, H1. reflexivity.
Qed.

Lemma room_id_twelve_bits_witness :
  crypto_count 2%N ≠ crypto_count_but_third 2%N
  ∧ (makeId crypto_count 3 0).1 = (makeId crypto_count_but_third 3 0).1.
Proof.
  split; [discriminate|].
  apply (room_id_uses_twelve_bits crypto_count crypto_count_but_third 0 0);
    vm_compute; reflexivity.
Defined.

(** ** create-room and the close handler *)

Section Teardown.
Variable dict : list string.
Variable rand : N -> Q.
Variable crypto : N -> N.

Lemma game_message_without_room (S : Server) ws msg :
  roomOf ws S = None → game_message msg →
  handle dict rand crypto S (Message ws msg) = (S, []).
Proof.
  intros Hr Hmsg. cbn [handle]. destruct msg; try done; cbn [onMessage].
  - unfold startGame. by rewrite Hr.
  - unfold onSubmitWord. by rewrite Hr.
  - unfold getState. by rewrite Hr.
Qed.

Lemma onClose_in_room (S : Server) ws rid room :
  roomOf ws S = Some (rid, room) →
  onClose ws S
  = ({| rooms := delete rid (rooms S); waiting := waiting S; roomId := roomId S;
        connections := connections S; closed := {[ws]} ∪ closed S;
        randomDraws := randomDraws S; cryptoDraws := cryptoDraws S |},
     map (fun p => (p, PeerLeft))
         (filter (fun p => p ≠ ws ∧ p ∉ {[ws]} ∪ closed S) (players room))).
Proof. intros Hr. unfold onClose. by rewrite Hr. Qed.

(** X19.  When a socket of a room closes, the room is removed from the
    registry, the queue and the room ids of the sockets are left as they
    were, peer-left is sent to exactly the other players that are still open,
    and from then on the game messages of every socket that still carries the
    id of that room are ignored without a reply. *)
Theorem close_tears_the_room_down (S : Server) ws rid room :
  roomOf ws S = Some (rid, room) →
  let after := handle dict rand crypto S (Close ws) in
  rooms after.1 = delete rid (rooms S)
  ∧ waiting after.1 = waiting S
  ∧ roomId after.1 = roomId S
  ∧ (∀ p, (p, PeerLeft) ∈ after.2 ↔ p ∈ players room ∧ p ≠ ws ∧ p ∉ closed S)
  ∧ (∀ p msg, roomId S !! p = Some rid → game_message msg →
       handle dict rand crypto after.1 (Message p msg) = (after.1, [])).
Proof.
  intros Hr. cbv zeta. cbn [handle]. rewrite (onClose_in_room S ws rid room Hr).
  cbn [fst snd rooms waiting roomId]. split_and!; try done.
  - intros p. rewrite list_elem_of_fmap. split.
    + intros (q & [= <-] & Hq). apply list_elem_of_filter in Hq as [[Hne Hopen] Hin].
      split_and!; try done. intros Hc. apply Hopen, elem_of_union. by right.
    + intros (Hin & Hne & Hopen). exists p. split; [done|].
      apply list_elem_of_filter. split_and!; try done.
      intros [Hc%elem_of_singleton|Hc]%elem_of_union; done.
  - intros p msg Hp Hmsg. apply game_message_without_room; [|done].
    apply roomOf_None. cbn [roomId rooms]. intros r Hr'.
    rewrite Hp in Hr'. injection Hr' as <-. apply lookup_delete_eq.
Qed.

(** X20.  When a socket without a room in the registry closes, nothing is
    sent and no room changes; in a reachable state the socket is not in the
    waiting queue afterwards and the other sockets of the queue stay. *)
Theorem close_leaves_the_queue (S : Server) ws :
  reachable dict rand crypto S →
  roomOf ws S = None →
  let after := handle dict rand crypto S (Close ws) in
  rooms after.1 = rooms S
  ∧ after.2 = []
  ∧ (ws ∉ waiting after.1)
  ∧ (∀ c, c ≠ ws → (c ∈ waiting after.1 ↔ c ∈ waiting S)).
Proof.
  intros Hreach Hr. cbv zeta. cbn [handle]. unfold onClose. rewrite Hr.
  cbn [fst snd rooms waiting].
  destruct (reachable_waiting_cases dict rand crypto S Hreach) as [->|[c ->]].
  - split_and!; try done. simpl. apply not_elem_of_nil.
  - simpl. destruct (decide (c = ws)) as [->|Hne].
    + split_and!; try done; [apply not_elem_of_nil|].
      intros c Hc. split; [by intros ?%elem_of_nil|].
      by intros ?%list_elem_of_singleton.
    + split_and!; try done. by intros ?%list_elem_of_singleton.
Qed.

(** X21.  create-room does not look at the registry: the room it writes
    replaces whatever was filed under the new id.  A socket that carried
    that id before, of a room now replaced or of one torn down earlier, is
    thereby attached to the new room without being one of its players, and its
    disconnection removes the new room and sends peer-left to its creator. *)
Theorem create_room_takes_over_the_id (S : Server) ws p rid :
  (makeId crypto 3 (cryptoDraws S)).1 = rid →
  roomId S !! p = Some rid →
  p ≠ ws →
  ws ∉ closed S →
  let created := handle dict rand crypto S (Message ws CreateRoom) in
  let room := {| room_id := rid; players := [ws]; state := None |} in
  rooms created.1 !! rid = Some room
  ∧ created.2 = [(ws, RoomCreated rid)]
  ∧ roomOf p created.1 = Some (rid, room)
  ∧ rooms (handle dict rand crypto created.1 (Close p)).1 !! rid = None
  ∧ (handle dict rand crypto created.1 (Close p)).2 = [(ws, PeerLeft)].
Proof.
  intros Hid Hp Hne Hopen. cbv zeta. cbn [handle onMessage]. unfold createRoom.
  destruct (makeId crypto 3 (cryptoDraws S)) as [r c']. cbn [fst] in Hid. subst r.
  cbn [fst snd rooms].
  match goal with |- context [onClose p ?S1] => set (S' := S1) end.
  assert (roomOf p S' = Some (rid, {| room_id := rid; players := [ws]; state := None |}))
    as Hroom.
  { apply roomOf_inv. unfold S'. cbn [roomId rooms].
    rewrite lookup_insert_ne by done. by rewrite lookup_insert_eq. }
  rewrite (onClose_in_room S' p rid _ Hroom). cbn [fst snd rooms players].
  split_and!; try done.
  - by rewrite lookup_insert_eq.
  - apply lookup_delete_eq.
  - rewrite filter_cons, decide_True; [done|]. split; [done|].
    unfold S'. cbn [closed]. intros [Hc%elem_of_singleton|Hc]%elem_of_union; done.
Qed.
End Teardown.

Lemma close_tears_down_witness :
  let S := (run [] random_high crypto_count initial trace_paired).1 in
  let after := handle [] random_high crypto_count S (Close 0) in
  is_Some (roomOf 0 S)
  ∧ waiting after.1 = waiting S
  ∧ handle [] random_high crypto_count after.1 (Message 1 GetState) = (after.1, []).
Proof.
  cbv zeta. split; [by_evaluation|].
  destruct (roomOf 0 (run [] random_high crypto_count initial trace_paired).1)
    as [[rid room]|] eqn:Hr; [|vm_compute in Hr; discriminate].
  destruct (close_tears_the_room_down [] random_high crypto_count _ 0 rid room Hr)
    as (_ & Hw & _ & _ & Hignored).
  split; [exact Hw|]. apply Hignored; [|exact I].
  vm_compute in Hr. injection Hr as <- _. vm_compute. reflexivity.
Defined.

Lemma close_leaves_the_queue_witness :
  let S := (run [] random_high crypto_count initial trace_waiter).1 in
  let after := handle [] random_high crypto_count S (Close 0) in
  reachable [] random_high crypto_count S
  ∧ roomOf 0 S = None
  ∧ waiting S = [0]
  ∧ (0 ∉ waiting after.1).
Proof.
  cbv zeta.
  assert (reachable [] random_high crypto_count
            (run [] random_high crypto_count initial trace_waiter).1) as Hreach
    by (apply reachable_run; [constructor | by_evaluation]).
  assert (roomOf 0 (run [] random_high crypto_count initial trace_waiter).1 = None)
    as Hr by (vm_compute; reflexivity).
  split; [exact Hreach|]. split; [exact Hr|]. split; [vm_compute; reflexivity|].
  exact (proj1 (proj2 (proj2 (close_leaves_the_queue [] random_high crypto_count _ 0
                                Hreach Hr)))).
Defined.

Lemma create_room_takes_over_witness :
  let S := (run [] random_high crypto_same initial trace_first_creates).1 in
  let created := handle [] random_high crypto_same S (Message 1 CreateRoom) in
  players <$> rooms S !! "aba" = Some [0]
  ∧ roomId S !! 0 = Some "aba"
  ∧ players <$> rooms created.1 !! "aba" = Some [1]
  ∧ rooms (handle [] random_high crypto_same created.1 (Close 0)).1 !! "aba" = None.
Proof.
  cbv zeta. split; [vm_compute; reflexivity|].
  assert (roomId (run [] random_high crypto_same initial trace_first_creates).1 !! 0
          = Some "aba") as Hp by (vm_compute; reflexivity).
  split; [exact Hp|].
  destruct (create_room_takes_over_the_id [] random_high crypto_same
              (run [] random_high crypto_same initial trace_first_creates).1 1 0 "aba")
    as (Hroom & _ & _ & Hgone & _);
    [vm_compute; reflexivity | exact Hp | lia | by_evaluation |].
  split; [|exact Hgone]. cbv zeta in Hroom.
  exact (f_equal (fmap players) Hroom).
Defined.

(** ** Loading the dictionary *)

Example loadDictionary_example :
  loadDictionary (Some (string_of_list_ascii
    (list_ascii_of_string "Cab" ++ ["013"; "010"]%char
     ++ list_ascii_of_string "  bad " ++ ["010"; "010"]%char
     ++ list_ascii_of_string "CAB" ++ ["010"]%char)))
  = ["cab"; "bad"].
Proof. vm_compute. reflexivity. Qed.

Lemma add_all_from_spec (ws set : list string) :
  NoDup set →
  NoDup (foldl (fun set w => if decide (w ∈ set) then set else set ++ [w]) set ws)
  ∧ ∀ w, w ∈ foldl (fun set w => if decide (w ∈ set) then set else set ++ [w]) set ws
         ↔ w ∈ set ∨ w ∈ ws.
Proof.
  revert set. induction ws as [|x ws IH]; intros set Hnd; simpl.
  - split; [done|]. intros w. split; [by left | intros [?|?%elem_of_nil]; done].
  - destruct (decide (x ∈ set)) as [Hin|Hout].
    + destruct (IH set Hnd) as [Hnd' Hmem]. split; [done|]. intros w.
      rewrite Hmem, elem_of_cons. split; [intros [?|?]; auto|].
      intros [?|[->|?]]; auto.
    + assert (NoDup (set ++ [x])) as Hnd2.
      { apply NoDup_app. split; [done|]. split; [|apply NoDup_singleton].
        by intros y Hy ->%list_elem_of_singleton. }
      destruct (IH _ Hnd2) as [Hnd' Hmem]. split; [done|]. intros w.
      rewrite Hmem, elem_of_app, list_elem_of_singleton, elem_of_cons. tauto.
Qed.

Lemma toLowerCase_idempotent (w : string) : toLowerCase (toLowerCase w) = toLowerCase w.
Proof.
  induction w as [|c w IH]; simpl; [done|].
  by rewrite toLowerCase_char_idempotent, IH.
Qed.

Lemma split_lines_no_feed l cur :
  "010"%char ∉ l → split_lines cur l = [reverse (reverse l ++ cur)].
Proof.
  revert cur. induction l as [|c l IH]; intros cur Hl; simpl; [done|].
  apply not_elem_of_cons in Hl as [Hc Hl].
  destruct (decide (c = "010"%char)); [done|].
  rewrite IH by done. by rewrite reverse_cons, <- app_assoc.
Qed.

Lemma split_lines_feed l cur rest :
  "010"%char ∉ l →
  split_lines cur (l ++ "010"%char :: rest)
  = reverse (strip_cr (reverse l ++ cur)) :: split_lines [] rest.
Proof.
  revert cur. induction l as [|c l IH]; intros cur Hl; simpl.
  - destruct (decide ("010"%char = "010"%char)); [|done]. done.
  - apply not_elem_of_cons in Hl as [Hc Hl].
    destruct (decide (c = "010"%char)); [done|].
    rewrite IH by done. by rewrite reverse_cons, <- app_assoc.
Qed.

Lemma drop_spaces_spaces pre rest :
  forallb is_space pre = true → drop_spaces (pre ++ rest) = drop_spaces rest.
Proof.
  induction pre as [|c pre IH]; simpl; [done|].
  intros [Hc Hpre]%andb_prop. rewrite Hc. by apply IH.
Qed.

Lemma drop_spaces_snoc l x :
  is_space x = true →
  drop_spaces (l ++ [x])
  = match drop_spaces l with [] => [] | _ => drop_spaces l ++ [x] end.
Proof.
  intros Hx. induction l as [|c l IH]; simpl; [by rewrite Hx|].
  destruct (is_space c); [done|]. done.
Qed.

Lemma trim_snoc_space l x : is_space x = true → trim (l ++ [x]) = trim l.
Proof.
  intros Hx. unfold trim. rewrite (drop_spaces_snoc l x Hx).
  destruct (drop_spaces l) as [|c rest]; [done|].
  rewrite reverse_app. change (reverse [x]) with [x]. cbn [app drop_spaces]. by rewrite Hx.
Qed.

Lemma trim_strip_cr l : trim (reverse (strip_cr (reverse l))) = trim l.
Proof.
  destruct l as [|c l0] using rev_ind; [done|].
  rewrite reverse_app. change (reverse [c]) with [c]. cbn [app strip_cr].
  destruct (decide (c = "013"%char)) as [->|Hne].
  - rewrite reverse_involutive. symmetry. by apply trim_snoc_space.
  - by rewrite reverse_cons, reverse_involutive.
Qed.

Lemma is_padding_spaces l : is_padding l = true → forallb is_space l = true.
Proof.
  unfold is_padding. induction l as [|c l IH]; simpl; [done|].
  intros [[Hc _]%andb_prop Hl]%andb_prop. rewrite Hc. by apply IH.
Qed.

Lemma is_padding_no_feed l : is_padding l = true → "010"%char ∉ l.
Proof.
  unfold is_padding. induction l as [|c l IH]; simpl; [intros _; apply not_elem_of_nil|].
  intros [[_ Hc]%andb_prop Hl]%andb_prop. apply not_elem_of_cons. split; [|by apply IH].
  intros <-. by rewrite Ascii.eqb_refl in Hc.
Qed.

Lemma is_entry_no_feed w : is_entry w = true → "010"%char ∉ list_ascii_of_string w.
Proof.
  unfold is_entry. intros [H _]%andb_prop. revert H.
  induction (list_ascii_of_string w) as [|c l IH]; simpl; [intros _; apply not_elem_of_nil|].
  intros [Hc Hl]%andb_prop. apply not_elem_of_cons. split; [|by apply IH].
  intros <-. by rewrite Ascii.eqb_refl in Hc.
Qed.

Lemma trim_padded pre w post :
  forallb is_space pre = true → forallb is_space post = true →
  match w with [] => True | c :: _ => is_space c = false ∧ is_space (List.last w c) = false end →
  trim (pre ++ w ++ post) = w.
Proof.
  intros Hpre Hpost Hw. unfold trim. rewrite drop_spaces_spaces by done.
  assert (∀ l, forallb is_space l = true → drop_spaces l = []) as Hall.
  { intros l Hl. rewrite <- (app_nil_r l). by rewrite drop_spaces_spaces. }
  destruct w as [|c w]; [cbn [app]; by rewrite (Hall post Hpost)|].
  destruct Hw as [Hc Hlast]. simpl. rewrite Hc.
  change (c :: w ++ post) with ((c :: w) ++ post). rewrite reverse_app.
  rewrite drop_spaces_spaces.
  2:{ clear -Hpost. induction post as [|x post IH]; [done|].
      apply andb_prop in Hpost as [Hx Hpost].
      rewrite reverse_cons, forallb_app, IH by done. simpl. by rewrite Hx. }
  destruct (exists_last (l := c :: w)) as (w0 & z & Heq); [done|].
  rewrite Heq in Hlast |- *. rewrite last_last in Hlast.
  rewrite reverse_app. change (reverse [z]) with [z]. cbn [app drop_spaces]. rewrite Hlast.
  by rewrite reverse_cons, reverse_involutive.
Qed.

Lemma trim_line (l : Line) :
  well_formed_line l → trim (line_chars l) = list_ascii_of_string (entry l).
Proof.
  intros (Hpre & Hw & Hpost). apply trim_padded; [by apply is_padding_spaces ..|].
  unfold is_entry in Hw. apply andb_prop in Hw as [_ Hw].
  destruct (list_ascii_of_string (entry l)) as [|c w]; [done|].
  apply andb_prop in Hw as [H1 H2]. split; by apply negb_true_iff.
Qed.

Lemma line_chars_no_feed (l : Line) : well_formed_line l → "010"%char ∉ line_chars l.
Proof.
  intros (Hpre & Hw & Hpost). unfold line_chars. rewrite !elem_of_app.
  intros [H|[H|H]];
    [by apply is_padding_no_feed in Hpre | by apply is_entry_no_feed in Hw
     | by apply is_padding_no_feed in Hpost].
Qed.

Lemma split_file_of_lines l (lines : list Line) :
  Forall well_formed_line (l :: lines) →
  map (fun line => toLowerCase (string_of_list_ascii (trim line)))
      (split_lines [] (file_of_lines (l :: lines)))
  = map (fun l => toLowerCase (entry l)) (l :: lines).
Proof.
  revert l. induction lines as [|l2 lines IH]; intros l Hall.
  - apply Forall_cons in Hall as [Hl _]. cbn [file_of_lines].
    rewrite split_lines_no_feed by (by apply line_chars_no_feed).
    rewrite app_nil_r, reverse_involutive. cbn [map].
    by rewrite trim_line, string_of_list_ascii_of_string.
  - apply Forall_cons in Hall as [Hl Hall].
    change (file_of_lines (l :: l2 :: lines))
      with (line_chars l ++ "010"%char :: file_of_lines (l2 :: lines)).
    rewrite split_lines_feed by (by apply line_chars_no_feed).
    rewrite app_nil_r. cbn [map]. rewrite IH by done.
    by rewrite trim_strip_cr, trim_line, string_of_list_ascii_of_string.
Qed.

Lemma add_all_first_occurrences (ws : list string) :
  add_all ws = reverse (remove_dups (reverse ws)).
Proof.
  induction ws as [|x ws IH] using rev_ind; [done|].
  unfold add_all in *. rewrite foldl_app. cbn [foldl].
  rewrite reverse_app. change (reverse [x]) with [x]. cbn [app remove_dups].
  destruct (add_all_from_spec ws [] (NoDup_nil_2)) as [_ Hmem].
  destruct (decide (x ∈ foldl _ [] ws)) as [Hin|Hout];
    destruct (decide_rel elem_of x (reverse ws)) as [Hin'|Hout'].
  - done.
  - exfalso. apply Hout'. apply elem_of_reverse. apply Hmem in Hin as [?%elem_of_nil|?]; done.
  - exfalso. apply Hout, Hmem. right. by apply elem_of_reverse.
  - by rewrite reverse_cons, IH.
Qed.

Lemma is_padding_app l1 l2 :
  is_padding l1 = true → is_padding l2 = true → is_padding (l1 ++ l2) = true.
Proof. unfold is_padding. intros H1 H2. by rewrite forallb_app, H1, H2. Qed.

Lemma is_padding_no_feeds l :
  is_padding l = true → forallb (fun c => negb (Ascii.eqb c "010")) l = true.
Proof.
  unfold is_padding. induction l as [|c l IH]; simpl; [done|].
  intros [[_ Hc]%andb_prop Hl]%andb_prop. rewrite Hc. by apply IH.
Qed.

Lemma cons_line c (l : Line) :
  well_formed_line l → c ≠ "010"%char →
  ∃ l2, well_formed_line l2 ∧ line_chars l2 = c :: line_chars l.
Proof.
  intros (Hpre & Hw & Hpost) Hc.
  assert (negb (Ascii.eqb c "010") = true) as Hc'
    by (apply negb_true_iff, Ascii.eqb_neq; done).
  destruct (is_space c) eqn:Hsp.
  - exists {| indent := c :: indent l; entry := entry l; trailer := trailer l |}.
    split; [|done]. split; [|done]. cbn [indent is_padding forallb].
    rewrite Hsp, Hc'. exact Hpre.
  - unfold line_chars. unfold is_entry in Hw. apply andb_prop in Hw as [Hfeed Hends].
    destruct (list_ascii_of_string (entry l)) as [|e es] eqn:Hchars.
    + exists {| indent := []; entry := String c ""; trailer := indent l ++ trailer l |}.
      split; [|done]. split; [done|]. split; [|by apply is_padding_app].
      unfold is_entry. cbn [entry list_ascii_of_string forallb List.last].
      by rewrite Hc', Hsp.
    + exists {| indent := [];
                entry := String c (string_of_list_ascii (indent l ++ e :: es));
                trailer := trailer l |}.
      cbn [indent entry trailer list_ascii_of_string].
      rewrite list_ascii_of_string_of_list_ascii.
      split; [|cbn [app]; by rewrite <- app_assoc].
      split; [done|]. split; [|done].
      unfold is_entry. cbn [entry list_ascii_of_string].
      rewrite ?list_ascii_of_string_of_list_ascii. cbn [forallb]. rewrite Hc', forallb_app, (is_padding_no_feeds _ Hpre), Hfeed, Hsp.
      cbn [andb negb]. apply andb_prop in Hends as [_ Hlast].
      destruct (exists_last (l := e :: es)) as (w0 & z & Heq); [done|].
      rewrite Heq in Hlast |- *. rewrite last_last in Hlast.
      change (c :: indent l ++ w0 ++ [z]) with ([c] ++ indent l ++ w0 ++ [z]).
      by rewrite !app_assoc, last_last.
Qed.

Lemma text_has_lines (t : list ascii) :
  ∃ l lines, Forall well_formed_line (l :: lines) ∧ t = file_of_lines (l :: lines).
Proof.
  induction t as [|c t (l & lines & Hall & ->)].
  - exists {| indent := []; entry := ""; trailer := [] |}, []. split; [|done].
    by repeat constructor.
  - destruct (decide (c = "010"%char)) as [->|Hc].
    + exists {| indent := []; entry := ""; trailer := [] |}, (l :: lines).
      split; [|done]. constructor; [done | exact Hall].
    + apply Forall_cons in Hall as [Hl Hall].
      destruct (cons_line c l Hl Hc) as (l2 & Hl2 & Heq).
      exists l2, lines. split; [by constructor|].
      destruct lines as [|l3 lines]; cbn [file_of_lines]; by rewrite Heq.
Qed.

(** X22.  For a words.txt of ASCII characters.  The file is a sequence of
    lines with a line feed between any two, each line an entry between two runs
    of white space without line feed, where the entry has no line feed and
    neither begins nor ends with white space (a carriage return before the
    line feed is part of the run that ends the line); every text has such
    lines.  The dictionary loaded at start-up holds the entries that are not
    empty, in lower case, in the order of the file, each one at its first
    occurrence only; so it holds no word twice, no empty word and only
    lower-case words, and the look-up of the lower-cased form of any
    non-empty entry succeeds.  When the file cannot be read the dictionary is
    empty. *)
Theorem loadDictionary_spec (text : string) :
  ascii_only text →
  let d := loadDictionary (Some text) in
  (∃ lines, lines_of_file text lines)
  ∧ (∀ lines, lines_of_file text lines →
       d = reverse (remove_dups (reverse (entries lines)))
       ∧ (∀ w, w ∈ d ↔ w ≠ "" ∧ ∃ l, l ∈ lines ∧ w = toLowerCase (entry l))
       ∧ (∀ l, l ∈ lines → entry l ≠ "" → dictionary_has d (toLowerCase (entry l)) = true))
  ∧ NoDup d
  ∧ (∀ w, w ∈ d → w ≠ "" ∧ toLowerCase w = w)
  ∧ loadDictionary None = [].
Proof.
  intros _. cbv zeta.
  assert (∀ lines, lines_of_file text lines →
            loadDictionary (Some text) = reverse (remove_dups (reverse (entries lines))))
    as Hload.
  { intros lines [Hall Htext]. unfold loadDictionary, entries.
    rewrite add_all_first_occurrences, Htext. destruct lines as [|l lines].
    - done.
    - by rewrite split_file_of_lines. }
  assert (∀ lines w, w ∈ reverse (remove_dups (reverse (entries lines)))
                     ↔ w ≠ "" ∧ ∃ l, l ∈ lines ∧ w = toLowerCase (entry l)) as Hmem.
  { intros lines w. rewrite elem_of_reverse, elem_of_remove_dups, elem_of_reverse.
    unfold entries. rewrite list_elem_of_filter, list_elem_of_fmap.
    split; intros (Hne & l & H1 & H2); (split; [done|]); by exists l. }
  destruct (text_has_lines (list_ascii_of_string text)) as (l0 & lines0 & Hall0 & Htext0).
  assert (lines_of_file text (l0 :: lines0)) as Hfile0 by done.
  split; [by eexists|]. split; [|split; [|split; [|done]]].
  - intros lines Hfile. rewrite (Hload lines Hfile). split; [done|]. split; [apply Hmem|].
    intros l Hl Hne. unfold dictionary_has. apply bool_decide_eq_true_2, Hmem.
    split; [|by exists l]. destruct (entry l); [done | discriminate].
  - rewrite (Hload _ Hfile0), reverse_Permutation. apply NoDup_remove_dups.
  - intros w. rewrite (Hload _ Hfile0), Hmem. intros (Hne & l & _ & ->).
    split; [done|]. apply toLowerCase_idempotent.
Qed.

Lemma loadDictionary_witness :
  ascii_only words_txt_example
  ∧ lines_of_file words_txt_example words_txt_lines
  ∧ loadDictionary (Some words_txt_example) = ["cab"; "ice cream"]
  ∧ dictionary_has (loadDictionary (Some words_txt_example)) "cab" = true.
Proof.
  assert (ascii_only words_txt_example) as Hascii by (vm_compute; reflexivity).
  assert (lines_of_file words_txt_example words_txt_lines) as Hfile.
  { split; [|vm_compute; reflexivity]. repeat constructor. }
  split; [exact Hascii|]. split; [exact Hfile|].
  destruct (loadDictionary_spec words_txt_example Hascii) as (_ & Hspec & _).
  destruct (Hspec words_txt_lines Hfile) as (Hd & _ & Hhas).
  split; [rewrite Hd; vm_compute; reflexivity|].
  apply (Hhas {| indent := []; entry := "CAB"; trailer := [] |});
    [unfold words_txt_lines; repeat constructor | discriminate].
Defined.

(** ** The waiting queue and the room ids *)

Section QueueInvariant.
Variable dict : list string.
Variable rand : N -> Q.
Variable crypto : N -> N.

Lemma reachable_disciplined_reachable (S : Server) :
  reachable_disciplined dict rand crypto S → reachable dict rand crypto S.
Proof. induction 1; by constructor. Qed.

Lemma handle_connections (S : Server) ev :
  connections S ≤ connections (handle dict rand crypto S ev).1.
Proof.
  destruct ev as [|ws|ws [|r m|m|m|w p| |]]; cbn [handle onMessage].
  - unfold onConnection. destruct (makeId crypto 4 (cryptoDraws S)). cbn. lia.
  - unfold onClose. by destruct (roomOf ws S) as [[rid room]|].
  - unfold createRoom. by destruct (makeId crypto 3 (cryptoDraws S)).
  - unfold joinRoom. destruct (rooms S !! r) as [room|]; [|done].
    destruct (2 <=? length (players room)); [done|].
    by destruct (initGameState dict rand (mode_or_default m) (randomDraws S)).
  - unfold quickMatch. destruct (waiting S); [done|].
    destruct (makeId crypto 3 (cryptoDraws S)).
    by destruct (initGameState dict rand (mode_or_default m) (randomDraws S)).
  - unfold startGame. destruct (roomOf ws S) as [[rid room]|]; [|done].
    destruct (state room); [done|].
    by destruct (initGameState dict rand (mode_or_default m) (randomDraws S)).
  - unfold onSubmitWord. destruct (roomOf ws S) as [[rid room]|]; [|done].
    destruct (state room) as [st|]; [|done]. by destruct (submitWord dict st w p).
  - unfold getState. by destruct (roomOf ws S) as [[rid room]|].
  - done.
Qed.

(** A room id, once set, stays set: only the connection event writes null,
    and it does so on the new socket. *)
Lemma handle_roomId_keeps (S : Server) ev c :
  is_Some (roomId S !! c) → c < connections S →
  is_Some (roomId (handle dict rand crypto S ev).1 !! c).
Proof.
  intros Hc Hlt. destruct ev as [|ws|ws [|r m|m|m|w p| |]]; cbn [handle onMessage].
  - unfold onConnection. destruct (makeId crypto 4 (cryptoDraws S)). cbn.
    rewrite lookup_delete_ne; [done | lia].
  - unfold onClose. by destruct (roomOf ws S) as [[rid room]|].
  - unfold createRoom. destruct (makeId crypto 3 (cryptoDraws S)). cbn.
    rewrite lookup_insert_is_Some. destruct (decide (ws = c)); auto.
  - unfold joinRoom. destruct (rooms S !! r) as [room|]; [|done].
    destruct (2 <=? length (players room)); [done|].
    destruct (initGameState dict rand (mode_or_default m) (randomDraws S)). cbn.
    rewrite lookup_insert_is_Some. destruct (decide (ws = c)); auto.
  - unfold quickMatch. destruct (waiting S) as [|peer rest]; [done|].
    destruct (makeId crypto 3 (cryptoDraws S)).
    destruct (initGameState dict rand (mode_or_default m) (randomDraws S)). cbn.
    rewrite !lookup_insert_is_Some.
    destruct (decide (ws = c)); [auto|]. destruct (decide (peer = c)); auto.
  - unfold startGame. destruct (roomOf ws S) as [[rid room]|]; [|done].
    destruct (state room); [done|].
    by destruct (initGameState dict rand (mode_or_default m) (randomDraws S)).
  - unfold onSubmitWord. destruct (roomOf ws S) as [[rid room]|]; [|done].
    destruct (state room) as [st|]; [|done]. by destruct (submitWord dict st w p).
  - unfold getState. by destruct (roomOf ws S) as [[rid room]|].
  - done.
Qed.

(** The three events that list a socket in a room give it the id of the
    room. *)
Lemma handle_roomId_sender (S : Server) ws :
  is_Some (roomId (handle dict rand crypto S (Message ws CreateRoom)).1 !! ws)
  ∧ (∀ rid m, join_succeeds S rid →
       is_Some (roomId (handle dict rand crypto S (Message ws (JoinRoom rid m))).1 !! ws))
  ∧ (∀ m peer rest, waiting S = peer :: rest →
       is_Some (roomId (handle dict rand crypto S (Message ws (QuickMatch m))).1 !! ws)
       ∧ is_Some (roomId (handle dict rand crypto S (Message ws (QuickMatch m))).1 !! peer)).
Proof.
  cbn [handle onMessage]. split_and!.
  - unfold createRoom. destruct (makeId crypto 3 (cryptoDraws S)). cbn.
    rewrite lookup_insert_eq. by eexists.
  - intros rid m Hjoin. unfold join_succeeds in Hjoin.
    destruct (rooms S !! rid) as [room|] eqn:Hr; [|done].
    rewrite (joinRoom_joins dict rand S ws rid m room Hr Hjoin). cbn.
    rewrite lookup_insert_eq. by eexists.
  - intros m peer rest Hw. rewrite (quickMatch_pairs dict rand crypto S ws m peer rest Hw).
    cbn. rewrite !lookup_insert_is_Some.
    split; [by left|]. destruct (decide (ws = peer)); auto.
Qed.

(** Every socket of the queue or of a room was accepted, and every player
    of a room carries a room id. *)
Lemma reachable_sockets (S : Server) :
  reachable dict rand crypto S →
  (∀ c, c ∈ waiting S → c < connections S)
  ∧ (∀ rid room c, rooms S !! rid = Some room → c ∈ players room →
       c < connections S ∧ is_Some (roomId S !! c)).
Proof.
  induction 1 as [|S ev _ [IHw IHp] Hen].
  - split; [by intros c ?%elem_of_nil|]. intros rid room c Hr.
    cbn [initial rooms] in Hr. by rewrite lookup_empty in Hr.
  - pose proof (handle_connections S ev) as Hmono.
    assert (∀ ws msg, ev = Message ws msg → ws < connections S) as Hsender.
    { intros ws msg ->. by destruct Hen. }
    split.
    + intros c Hc.
      destruct (handle_waiting dict rand crypto S ev)
        as [Hw|[(ws & _ & Hw)|[(ws & m & Hev & _ & Hw)|(ws & m & peer & _ & Hq)]]].
      * rewrite Hw in Hc. specialize (IHw c Hc). lia.
      * rewrite Hw in Hc. apply remove_first_elem in Hc. specialize (IHw c Hc). lia.
      * rewrite Hw in Hc. apply list_elem_of_singleton in Hc as ->.
        specialize (Hsender _ _ Hev). lia.
      * assert (c ∈ waiting S) as Hc' by (rewrite Hq; by right).
        specialize (IHw c Hc'). lia.
    + intros rid room' c Hroom' Hin.
      destruct (handle_players dict rand crypto _ _ _ _ Hroom')
        as [(room & Hr & Hp)|[(ws & Hev & Hp)|[(ws & m & room & Hev & Hr & Hlt & Hp)
                                             |(ws & m & peer & rest & Hev & Hq & Hp)]]];
        rewrite Hp in Hin; clear Hp.
      * destruct (IHp rid room c Hr Hin) as [Hlt Hid].
        split; [lia | by apply handle_roomId_keeps].
      * apply list_elem_of_singleton in Hin as ->. specialize (Hsender _ _ Hev).
        split; [lia|]. subst ev. apply (handle_roomId_sender S ws).
      * specialize (Hsender _ _ Hev). apply elem_of_app in Hin as [Hin|Hin].
        -- destruct (IHp rid room c Hr Hin) as [Hc Hid].
           split; [lia | by apply handle_roomId_keeps].
        -- apply list_elem_of_singleton in Hin as ->. split; [lia|]. subst ev.
           apply (handle_roomId_sender S ws). unfold join_succeeds. by rewrite Hr.
      * specialize (Hsender _ _ Hev). subst ev.
        destruct (proj2 (proj2 (handle_roomId_sender S ws)) m peer rest Hq) as [Hws Hpeer].
        apply elem_of_cons in Hin as [->|Hin].
        -- split; [|done]. assert (peer ∈ waiting S) as Hp by (rewrite Hq; by left).
           specialize (IHw peer Hp). lia.
        -- apply list_elem_of_singleton in Hin as ->. split; [lia | done].
Qed.

Lemma waiting_at_most_one (S : Server) :
  reachable dict rand crypto S → waiting S = [] ∨ ∃ c, waiting S = [c].
Proof.
  induction 1 as [|S ev _ IH _]; [by left|].
  destruct (handle_waiting dict rand crypto S ev)
    as [->|[(ws & _ & ->)|[(ws & m & _ & _ & ->)|(ws & m & peer & _ & Hq)]]].
  - done.
  - destruct IH as [->|[c ->]]; [by left|]. simpl.
    destruct (decide (c = ws)); [by left | right; by exists c].
  - right. by exists ws.
  - destruct IH as [IH|[c IH]]; rewrite Hq in IH; [done|].
    injection IH as _ ->. by left.
Qed.

(** A disciplined event leaves the sockets of the queue without a room
    id. *)
Lemma handle_queue_roomless (S : Server) ev :
  reachable dict rand crypto S → disciplined S ev →
  (∀ c, c ∈ waiting S → roomId S !! c = None) →
  ∀ c, c ∈ waiting (handle dict rand crypto S ev).1 →
       roomId (handle dict rand crypto S ev).1 !! c = None.
Proof.
  intros Hreach Hd IH c.
  destruct ev as [|ws|ws [|r m|m|m|w p| |]]; cbn [handle onMessage].
  - unfold onConnection. destruct (makeId crypto 4 (cryptoDraws S)). cbn. intros Hc.
    destruct (decide (connections S = c)) as [->|Hne]; [apply lookup_delete_eq|].
    rewrite lookup_delete_ne by done. by apply IH.
  - unfold onClose. destruct (roomOf ws S) as [[rid room]|]; cbn; [apply IH|].
    intros Hc%remove_first_elem. by apply IH.
  - unfold createRoom. destruct (makeId crypto 3 (cryptoDraws S)). cbn. intros Hc.
    rewrite lookup_insert_ne; [by apply IH|]. by intros <-.
  - unfold joinRoom. destruct (rooms S !! r) as [room|] eqn:Hr; [|apply IH].
    destruct (Nat.leb_spec 2 (length (players room))); [apply IH|].
    destruct (initGameState dict rand (mode_or_default m) (randomDraws S)). cbn.
    intros Hc. rewrite lookup_insert_ne; [by apply IH|]. intros <-.
    apply (Hd Hc). unfold join_succeeds. by rewrite Hr.
  - unfold quickMatch. destruct (waiting_at_most_one S Hreach) as [Hw|[peer Hw]];
      rewrite Hw in *.
    + cbn. intros ->%list_elem_of_singleton. by apply Hd.
    + destruct (makeId crypto 3 (cryptoDraws S)).
      destruct (initGameState dict rand (mode_or_default m) (randomDraws S)). cbn.
      by intros ?%elem_of_nil.
  - unfold startGame. destruct (roomOf ws S) as [[rid room]|]; [|apply IH].
    destruct (state room); [apply IH|].
    destruct (initGameState dict rand (mode_or_default m) (randomDraws S)). apply IH.
  - unfold onSubmitWord. destruct (roomOf ws S) as [[rid room]|]; [|apply IH].
    destruct (state room) as [st|]; [|apply IH].
    destruct (submitWord dict st w p); apply IH.
  - unfold getState. destruct (roomOf ws S) as [[rid room]|]; apply IH.
  - apply IH.
Qed.

(** Each of the events the discipline excludes puts, or leaves, in the queue
    a socket that carries a room id: nothing less can be asked. *)
Lemma undisciplined_event_breaks (S : Server) ev :
  ¬ disciplined S ev →
  ∃ c, c ∈ waiting (handle dict rand crypto S ev).1
       ∧ is_Some (roomId (handle dict rand crypto S ev).1 !! c).
Proof.
  intros Hnot. destruct ev as [|ws|ws [|r m|m|m|w p| |]]; try (by destruct Hnot);
    cbn [disciplined] in Hnot.
  - apply dec_stable in Hnot.
    exists ws. split; [|apply (handle_roomId_sender S ws)].
    cbn [handle onMessage]. unfold createRoom.
    by destruct (makeId crypto 3 (cryptoDraws S)).
  - destruct (decide (ws ∈ waiting S)) as [Hin|Hout]; [|by destruct Hnot].
    destruct (decide (join_succeeds S r)) as [Hjoin|Hfail]; [|by destruct Hnot].
    exists ws. split; [|by apply (handle_roomId_sender S ws)].
    unfold join_succeeds in Hjoin. destruct (rooms S !! r) as [room|] eqn:Hr; [|done].
    cbn [handle onMessage]. by rewrite (joinRoom_joins dict rand S ws r m room Hr Hjoin).
  - destruct (waiting S) as [|peer rest] eqn:Hw; [|by destruct Hnot].
    destruct (roomId S !! ws) as [rid|] eqn:Hid; [|by destruct Hnot].
    exists ws. cbn [handle onMessage]. rewrite (quickMatch_waits dict rand crypto S ws m Hw).
    cbn. split; [by left | by rewrite Hid].
Qed.
End QueueInvariant.

(** C7 (amended).  In every state reached without a quick-match that
    enqueues a socket whose room id is set and without a create-room, or a
    join-room that succeeds, from a socket of the waiting queue, a connection
    of the waiting queue has no room association: its room id is null, it
    resolves to no room of the registry and it is a player of none. *)
Theorem C7_queued_connection_has_no_room dict rand crypto (S : Server) (c : conn) :
  reachable_disciplined dict rand crypto S →
  c ∈ waiting S →
  roomId S !! c = None ∧ roomOf c S = None ∧ ¬ in_room S c.
Proof.
  intros Hreach Hc.
  assert (roomId S !! c = None) as Hnone.
  { revert c Hc. induction Hreach as [|S ev Hreach IH Hen Hd]; [by intros c ?%elem_of_nil|].
    apply handle_queue_roomless; [by apply reachable_disciplined_reachable | done | done]. }
  split; [done|]. split; [unfold roomOf; by rewrite Hnone|].
  intros (rid & room & Hr & Hin).
  apply reachable_disciplined_reachable in Hreach.
  destruct (proj2 (reachable_sockets dict rand crypto S Hreach) rid room c Hr Hin)
    as [_ [x Hx]].
  unfold conn in *. congruence.
Qed.

(** C7, an instance: a socket waits for a quick match beside a room of two
    and a room of one. *)
Lemma C7_queued_connection_witness :
  let S := (run [] random_high crypto_count initial trace_rooms_and_waiter).1 in
  reachable_disciplined [] random_high crypto_count S
  ∧ 3 ∈ waiting S
  ∧ size (rooms S) = 2
  ∧ roomId S !! 3 = None ∧ roomOf 3 S = None ∧ ¬ in_room S 3.
Proof.
  cbv zeta.
  assert (reachable_disciplined [] random_high crypto_count
            (run [] random_high crypto_count initial trace_rooms_and_waiter).1) as Hreach
    by (apply reachable_disciplined_run; [constructor | by_evaluation]).
  assert (3 ∈ waiting (run [] random_high crypto_count initial trace_rooms_and_waiter).1)
    as Hin by by_evaluation.
  split; [exact Hreach|]. split; [exact Hin|]. split; [vm_compute; reflexivity|].
  exact (C7_queued_connection_has_no_room [] random_high crypto_count _ 3 Hreach Hin).
Defined.
